(** * fusedwind.turbine.geometry: blade planform splines and resampling

    A shallow embedding of [src/fusedwind/turbine/geometry.py]: the spline
    strategies ([pchipSpline], [BezierSpline], [spline_dict]), the planform
    reader ([read_blade_planform]), the planform resampler
    ([PGLRedistributedPlanform]), the free-form-deformation component
    ([FFDSpline]) and the small helper components.

    numpy arrays of float64 are lists over a scalar carrier.  The carrier is
    a type class so that the same definitions run on IEEE binary64
    ([float64], Rocq's primitive floats: what the Python code computes
    with) and can be reasoned about in exact real arithmetic ([R]). *)

From Stdlib Require Import PrimFloat.
From Stdlib Require Import Reals Lra.
From stdpp Require Import gmap strings list.

Set Default Proof Using "Type".

(** ** Scalars *)

Class Scalar (F : Type) := {
  fzero : F;
  fone : F;
  fadd : F → F → F;
  fsub : F → F → F;
  fmul : F → F → F;
  fdiv : F → F → F;
  fsqrt : F → F;
  fltb : F → F → bool;   (* Python's [x < y] *)
  feqb : F → F → bool;   (* Python's [x == y]; false on a NaN *)
}.

Declare Scope np_scope.
Delimit Scope np_scope with np.
Infix "⊕" := fadd (at level 50, left associativity) : np_scope.
Infix "⊖" := fsub (at level 50, left associativity) : np_scope.
Infix "⊗" := fmul (at level 40, left associativity) : np_scope.
Infix "⊘" := fdiv (at level 40, left associativity) : np_scope.
Open Scope np_scope.

(** IEEE 754 binary64, the element type of the numpy arrays. *)
#[export] Instance float64 : Scalar PrimFloat.float := {
  fzero := 0%float;
  fone := 1%float;
  fadd := PrimFloat.add;
  fsub := PrimFloat.sub;
  fmul := PrimFloat.mul;
  fdiv := PrimFloat.div;
  fsqrt := PrimFloat.sqrt;
  fltb := PrimFloat.ltb;
  feqb := PrimFloat.eqb;
}.

Definition Rltb (x y : R) : bool := if Rlt_dec x y then true else false.
Definition Reqb (x y : R) : bool := if Req_dec_T x y then true else false.

(** Exact real arithmetic: the same programs with rounding left out. *)
#[export] Instance real : Scalar R := {
  fzero := 0%R;
  fone := 1%R;
  fadd := Rplus;
  fsub := Rminus;
  fmul := Rmult;
  fdiv := Rdiv;
  fsqrt := R_sqrt.sqrt;
  fltb := Rltb;
  feqb := Reqb;
}.

(** ** Exceptions and results *)

(** The Python exceptions the module can raise, and the two error names of
    the specification's taxonomy (no statement of the module raises them). *)
Inductive exn : Type :=
  | KeyError (key : string)
  | IndexError
  | ValueError
  | NameError (name : string)
  | AttributeError (name : string)
  | NotImplementedError
  | ConfigurationError
  | NumericalError.

Inductive result (A : Type) : Type :=
  | Ok (a : A)
  | Raise (e : exn).
Arguments Ok {A} a.
Arguments Raise {A} e.

#[export] Instance result_ret : MRet result := λ A a, Ok a.
#[export] Instance result_bind : MBind result := λ A B f m,
  match m with
  | Ok a => f a
  | Raise e => Raise e
  end.

Definition is_Ok {A} (r : result A) : Prop := ∃ a, r = Ok a.

(** [d[k]] on a Python dict. *)
Definition dict_get {V} (d : gmap string V) (k : string) : result V :=
  match d !! k with
  | Some v => Ok v
  | None => Raise (KeyError k)
  end.

(** ** numpy array operations *)

Section numpy.
Context {F : Type} `{Scalar F}.

(** [a op b] on two 1-d arrays: equal shapes go elementwise, a length-1
    operand is broadcast, anything else is a [ValueError]. *)
Definition np_binop (op : F → F → F) (a b : list F) : result (list F) :=
  if decide (length a = length b) then Ok (zip_with op a b)
  else match a, b with
       | [x], _ => Ok (map (op x) b)
       | _, [y] => Ok (map (λ x, op x y) a)
       | _, _ => Raise ValueError
       end.

Definition np_add := np_binop fadd.
Definition np_mul := np_binop fmul.

(** [a * c] and [a / c] for an array [a] and a scalar [c]. *)
Definition np_scale (a : list F) (c : F) : list F := map (λ x, x ⊗ c) a.
Definition np_div_scalar (a : list F) (c : F) : list F := map (λ x, x ⊘ c) a.

(** [a[-1]]. *)
Definition np_last (a : list F) : result F :=
  match last a with
  | Some x => Ok x
  | None => Raise IndexError
  end.

(** [np.maximum]: the larger operand, and a NaN when either is one. *)
Definition fmax (x y : F) : F :=
  if negb (feqb x x) then x
  else if negb (feqb y y) then y
  else if fltb x y then y else x.

(** [a.max()]; numpy refuses an empty array. *)
Definition np_max (a : list F) : result F :=
  match a with
  | [] => Raise ValueError
  | x :: a' => Ok (foldl fmax x a')
  end.

(** [np.array([a, b]).T]: the (N, 2) array of the pairs; rows of unequal
    length do not form a 2-d array. *)
Definition np_columns (a b : list F) : result (list (F * F)) :=
  if decide (length a = length b) then Ok (zip a b) else Raise ValueError.
End numpy.


(** ** Collaborators that are not in the module

    [calculate_length] and [curvature] come from [fusedwind.lib.geom_tools],
    [pchip] from scipy.  The module only calls them; the definitions below
    are used to run it on concrete tables and to settle what a claim says
    about the collaborator itself. *)

Section collaborators.
Context {F : Type} `{Scalar F}.

Definition ftwo : F := fone ⊕ fone.
Definition fthree : F := ftwo ⊕ fone.
Definition fsquare (x : F) : F := x ⊗ x.
Definition fabs (x : F) : F := if fltb x fzero then fzero ⊖ x else x.
(** [np.sign]: -1, 0 or 1, and the argument itself when it is a NaN. *)
Definition fsign (x : F) : F :=
  if fltb x fzero then fzero ⊖ fone else if fltb fzero x then fone else x.

Definition dist3 (p q : F * F * F) : F :=
  let '(px, py, pz) := p in
  let '(qx, qy, qz) := q in
  fsqrt (fsquare (qx ⊖ px) ⊕ fsquare (qy ⊖ py) ⊕ fsquare (qz ⊖ pz)).

Fixpoint running_length (acc : F) (p : F * F * F) (ps : list (F * F * F)) : list F :=
  match ps with
  | [] => []
  | q :: ps' =>
      let acc' := acc ⊕ dist3 p q in
      acc' :: running_length acc' q ps'
  end.

(** Modelled from the spec: [fusedwind.lib.geom_tools.calculate_length] is
    not under src/.  Section 4.1: the cumulative Euclidean distance from
    the first point; one entry per point, the first entry 0. *)
Definition calculate_length_spec (points : list (F * F * F)) : result (list F) :=
  match points with
  | [] => Ok []
  | p :: ps => Ok (fzero :: running_length fzero p ps)
  end.

(** Entries 1.. of [np.gradient] (unit spacing) of a list that starts one
    entry earlier: centred differences, and a one-sided one at the end. *)
Fixpoint gradient_from (y : list F) : list F :=
  match y with
  | a :: ((b :: y'') as y') =>
      match y'' with
      | [] => [b ⊖ a]
      | c :: _ => ((c ⊖ a) ⊘ ftwo) :: gradient_from y'
      end
  | _ => []
  end.

Definition gradient (y : list F) : list F :=
  match y with
  | a :: b :: _ => (b ⊖ a) :: gradient_from y
  | _ => y
  end.

(** Modelled from the spec: [fusedwind.lib.geom_tools.curvature] is not
    under src/.  Section 4.1: the discrete signed curvature of the pairs
    (s, value), (x' y'' - y' x'') / (x'^2 + y'^2)^(3/2), with first and
    second derivatives estimated by finite differences, centred in the
    interior and one-sided at the two end points; one value per pair. *)
Definition curvature_spec (points : list (F * F)) : result (list F) :=
  let x1 := gradient (points.*1) in
  let x2 := gradient x1 in
  let y1 := gradient (points.*2) in
  let y2 := gradient y1 in
  let num := zip_with fsub (zip_with fmul x1 y2) (zip_with fmul y1 x2) in
  let sq := zip_with fadd (map fsquare x1) (map fsquare y1) in
  Ok (zip_with fdiv num (map (λ d, d ⊗ fsqrt d) sq)).

(** [a[1:] - a[:-1]]. *)
Definition diffs (a : list F) : list F := zip_with (λ x0 x1, x1 ⊖ x0) a (tail a).

(** The one-sided three-point slope at an end point, limited so that the
    interpolant keeps the shape of the data. *)
Definition pchip_edge (h0 h1 m0 m1 : F) : F :=
  let d := ((ftwo ⊗ h0 ⊕ h1) ⊗ m0 ⊖ h0 ⊗ m1) ⊘ (h0 ⊕ h1) in
  if negb (feqb (fsign d) (fsign m0)) then fzero
  else if negb (feqb (fsign m0) (fsign m1)) && fltb (fthree ⊗ fabs m0) (fabs d)
  then fthree ⊗ m0
  else d.

(** The slope at an interior point: 0 where the secant slopes [m0], [m1]
    of the two neighbouring intervals (of widths [h0], [h1]) change sign
    or vanish, their weighted harmonic mean otherwise. *)
Definition pchip_interior (h0 h1 m0 m1 : F) : F :=
  if negb (feqb (fsign m1) (fsign m0)) || feqb m1 fzero || feqb m0 fzero then fzero
  else
    let w1 := ftwo ⊗ h1 ⊕ h0 in
    let w2 := h1 ⊕ ftwo ⊗ h0 in
    fone ⊘ ((w1 ⊘ m0 ⊕ w2 ⊘ m1) ⊘ (w1 ⊕ w2)).

(** Slopes at the points 1.. from the widths and secant slopes of the
    intervals 0.. *)
Fixpoint pchip_inner (hk mk : list F) : list F :=
  match hk, mk with
  | h0 :: ((h1 :: hk'') as hk'), m0 :: ((m1 :: _) as mk') =>
      pchip_interior h0 h1 m0 m1 ::
        match hk'' with
        | [] => [pchip_edge h1 h0 m1 m0]
        | _ => pchip_inner hk' mk'
        end
  | _, _ => []
  end.

Definition pchip_derivatives (xp yp : list F) : list F :=
  let hk := diffs xp in
  let mk := zip_with fdiv (diffs yp) hk in
  match hk, mk with
  | [_], [m] => [m; m]
  | h0 :: h1 :: _, m0 :: m1 :: _ => pchip_edge h0 h1 m0 m1 :: pchip_inner hk mk
  | _, _ => []
  end.

(** The cubic on [x0, x1] with values [y0], [y1] and slopes [d0], [d1]. *)
Definition hermite (x0 x1 y0 y1 d0 d1 x : F) : F :=
  let h := x1 ⊖ x0 in
  let t := (x ⊖ x0) ⊘ h in
  let t2 := t ⊗ t in
  let t3 := t2 ⊗ t in
  (ftwo ⊗ t3 ⊖ fthree ⊗ t2 ⊕ fone) ⊗ y0
  ⊕ (t3 ⊖ ftwo ⊗ t2 ⊕ t) ⊗ (h ⊗ d0)
  ⊕ (fthree ⊗ t2 ⊖ ftwo ⊗ t3) ⊗ y1
  ⊕ (t3 ⊖ t2) ⊗ (h ⊗ d1).

(** The piecewise cubic at [x]: the piece of the interval that holds [x],
    the first or the last piece outside the points. *)
Fixpoint pchip_eval (xp yp dp : list F) (x : F) : F :=
  match xp, yp, dp with
  | x0 :: ((x1 :: xp'') as xp'), y0 :: ((y1 :: _) as yp'), d0 :: ((d1 :: _) as dp') =>
      match xp'' with
      | [] => hermite x0 x1 y0 y1 d0 d1 x
      | _ => if fltb x x1 then hermite x0 x1 y0 y1 d0 d1 x
             else pchip_eval xp' yp' dp' x
      end
  | _, _, _ => fzero ⊘ fzero
  end.

Fixpoint strictly_increasing (a : list F) : bool :=
  match a with
  | x0 :: ((x1 :: _) as a') => fltb x0 x1 && strictly_increasing a'
  | _ => true
  end.

(** Modelled from the spec: [scipy.interpolate.pchip] is not part of the
    repository.  Section 4.2: a shape-preserving (monotone) piecewise
    cubic through the points (Cx, C), fitted on each call and queried at
    [x]; it fails with [NumericalError] when there are fewer than 2
    points or the abscissas are not strictly increasing.  The slopes are
    the usual ones of the method (Fritsch and Carlson's harmonic mean),
    points outside the abscissas use the end pieces, and ordinates that
    are not one per abscissa are refused with [ValueError]. *)
Definition pchip_spec (xp yp x : list F) : result (list F) :=
  if decide (length xp < 2) then Raise NumericalError
  else if decide (length yp ≠ length xp) then Raise ValueError
  else if negb (strictly_increasing xp) then Raise NumericalError
  else Ok (map (pchip_eval xp yp (pchip_derivatives xp yp)) x).
End collaborators.


(** ** Statements that change an object and may raise

    [M S A]: a computation on a state [S] that returns an [A] or raises;
    what was assigned before the exception stays assigned. *)

Definition M (S A : Type) : Type := S → result A * S.

#[export] Instance M_ret {S} : MRet (M S) := λ A a st, (Ok a, st).
#[export] Instance M_bind {S} : MBind (M S) := λ A B f m st,
  match m st with
  | (Ok a, st') => f a st'
  | (Raise e, st') => (Raise e, st')
  end.

Definition lift {S A} (r : result A) : M S A := λ st, (r, st).
Definition gets {S A} (f : S → A) : M S A := λ st, (Ok (f st), st).
Definition modify {S} (f : S → S) : M S unit := λ st, (Ok tt, f st).

(** ** The module *)

Section geometry.
Context {F : Type} `{Scalar F}.

(** *** What the module imports *)

(** [_PGL_installed]: whether the import of PGL at the top succeeded. *)
Variable PGL_installed : bool.
(** [pchip xp yp x] is [pchip(xp, yp)(x)] (scipy). *)
Variable pchip : list F → list F → list F → result (list F).
(** [NaturalCubicSpline xp yp x] is [NaturalCubicSpline(xp, yp)(x)]
    (fusedwind.lib.naturalcubicspline). *)
Variable NaturalCubicSpline : list F → list F → list F → result (list F).
(** fusedwind.lib.geom_tools. *)
Variable calculate_length : list (F * F * F) → result (list F).
Variable curvature : list (F * F) → result (list F).
(** [BezierCurve.update] (PGL): the sampled points of the curve with the
    given control points, the rows [Cx] and [C] of [np.array([Cx, C]).T]. *)
Variable BezierCurve_update : list F * list F → result (list (F * F)).
(** [PGL.main.planform.redistribute_planform(pf, dist, s, spline_type)]. *)
Variable PGL_redistribute_planform :
  gmap string (list F) → list (list F) → list F → string → result (gmap string (list F)).

(** *** Spline strategies (lines 22-147) *)

Record BezierCurve := { CPs : list F * list F; points : list (F * F) }.

(** [BezierCurve()]: the name is bound only when PGL was imported. *)
Definition BezierCurve_new : result BezierCurve :=
  if PGL_installed then Ok {| CPs := ([], []); points := [] |}
  else Raise (NameError "BezierCurve").

(** An object of class [pchipSpline] or [BezierSpline]; the latter has
    the attribute [B] once [initialize] has assigned it. *)
Inductive Spline : Type :=
  | pchipSpline
  | BezierSpline (B : option BezierCurve).

(** [self.__call__(x, Cx, C)]: the values and the object afterwards. *)
Definition Spline_call (self : Spline) (x Cx C : list F) : result (list F) * Spline :=
  match self with
  | pchipSpline => (pchip Cx C x, self)
  | BezierSpline None => (Raise (AttributeError "B"), self)
  | BezierSpline (Some B) =>
      let B1 := {| CPs := (Cx, C); points := points B |} in
      match BezierCurve_update (CPs B1) with
      | Raise e => (Raise e, BezierSpline (Some B1))
      | Ok pts =>
          (NaturalCubicSpline (pts.*1) (pts.*2) x,
           BezierSpline (Some {| CPs := (Cx, C); points := pts |}))
      end
  end.

(** [self.initialize(x, xp, yp)]. *)
Definition Spline_initialize (self : Spline) (x xp yp : list F) : result (list F) * Spline :=
  match self with
  | pchipSpline => Spline_call self x xp yp
  | BezierSpline _ =>
      match BezierCurve_new with
      | Raise e => (Raise e, self)
      | Ok B => Spline_call (BezierSpline (Some {| CPs := (xp, yp); points := points B |})) x xp yp
      end
  end.

(** [spline_dict]: each class stands for the object its call makes. *)
Definition spline_dict : gmap string Spline :=
  {[ "pchip" := pchipSpline; "bezier" := BezierSpline None ]}.

(** *** read_blade_planform (lines 152-198) *)

(** A value of the planform dictionary: a float or an array. *)
Inductive value : Type :=
  | VFloat (x : F)
  | VArray (a : list F).

(** [np.loadtxt]: the rows of the table as a 2-d array.  A table of one
    row (or none) comes back 1-d, which [data[:, j]] cannot index. *)
Definition loadtxt (rows : list (list F)) : result (list (list F)) :=
  match rows with
  | _ :: _ :: _ => Ok rows
  | _ => Raise IndexError
  end.

Definition row_get (row : list F) (j : nat) : result F :=
  match row !! j with
  | Some x => Ok x
  | None => Raise IndexError
  end.

(** [data[:, j]]. *)
Fixpoint column (data : list (list F)) (j : nat) : result (list F) :=
  match data with
  | [] => Ok []
  | row :: data' => x ← row_get row j; c ← column data' j; Ok (x :: c)
  end.

(** [data[-1, j]]. *)
Definition last_row_get (data : list (list F)) (j : nat) : result F :=
  match last data with
  | Some row => row_get row j
  | None => Raise IndexError
  end.

Definition zip3 (a b c : list F) : list (F * F * F) := zip (zip a b) c.

(** The table is given by its rows of numbers (reading the file is
    numpy's).  [pf['blade_length']] is [data[-1, 2]]; [rthick] is divided
    by its maximum and [s] by its last entry, with no check on either. *)
Definition read_blade_planform (rows : list (list F)) : result (gmap string value) :=
  data ← loadtxt rows;                      (* 179 *)
  c0 ← column data 0;                       (* 180: data[:, [0, 1, 2]] *)
  c1 ← column data 1;
  c2 ← column data 2;
  s ← calculate_length (zip3 c0 c1 c2);
  blade_length ← last_row_get data 2;       (* 183 *)
  smax ← np_last s;                         (* 184, 185: s[-1] *)
  c3 ← column data 3;
  c4 ← column data 4;
  c5 ← column data 5;
  c6 ← column data 6;
  let chord := np_div_scalar c6 blade_length in   (* 192 *)
  c7 ← column data 7;                       (* 193 *)
  rmax ← np_max c7;                         (* 194: rthick /= rthick.max() *)
  let rthick := np_div_scalar c7 rmax in
  athick ← np_mul rthick chord;             (* 195 *)
  c8 ← column data 8;                       (* 196 *)
  Ok (<["p_le" := VArray c8]> $
      <["athick" := VArray athick]> $
      <["rthick" := VArray rthick]> $
      <["chord" := VArray chord]> $
      <["rot_z" := VArray c5]> $
      <["rot_y" := VArray c4]> $
      <["rot_x" := VArray c3]> $
      <["z" := VArray (np_div_scalar c2 blade_length)]> $
      <["y" := VArray (np_div_scalar c1 blade_length)]> $
      <["x" := VArray (np_div_scalar c0 blade_length)]> $
      <["smax" := VFloat smax]> $
      <["s" := VArray (np_div_scalar s smax)]> $
      <["blade_length" := VFloat blade_length]> ∅).

(** *** PGLRedistributedPlanform (lines 316-412) *)

Record PGLRedistributedPlanform := {
  rp_spline_type : string;   (* [self.spline_type], 'akima' *)
  s_new : list F;
  _suffix : string;
}.

Definition PGLRedistributedPlanform_init (name : string) (s_new : list F) :=
  {| rp_spline_type := "akima"; s_new := s_new; _suffix := name |}.

(** ['blade%s:%s' % (self._suffix, k)]. *)
Definition blade_key (suffix k : string) : string := "blade" +:+ suffix +:+ ":" +:+ k.

(** The fallback loop (lines 405-408): every entry of [pf_in] goes
    through [pchip] over [pf_in['s']] and is evaluated at [s_new].  The
    entries are visited in the order of the dictionary; the first
    exception ends the loop. *)
Definition resample_pchip (s_in s_out : list F) (pf_in : gmap string (list F))
    : result (gmap string (list F)) :=
  map_fold (λ k v acc, pf ← acc; r ← pchip s_in v s_out; Ok (<[k := r]> pf)) (Ok ∅) pf_in.

Definition PGLRedistributedPlanform_solve_nonlinear (self : PGLRedistributedPlanform)
    (params : gmap string (list F)) : M (gmap string (list F)) unit :=
  ps ← lift (dict_get params "blade_ae:s");
  px ← lift (dict_get params "blade_ae:x");
  py ← lift (dict_get params "blade_ae:y");
  pz ← lift (dict_get params "blade_ae:z");
  prot_x ← lift (dict_get params "blade_ae:rot_x");
  prot_y ← lift (dict_get params "blade_ae:rot_y");
  prot_z ← lift (dict_get params "blade_ae:rot_z");
  pchord ← lift (dict_get params "blade_ae:chord");
  prthick ← lift (dict_get params "blade_ae:rthick");
  pp_le ← lift (dict_get params "blade_ae:p_le");
  let pf_in : gmap string (list F) :=
    <["p_le" := pp_le]> $ <["rthick" := prthick]> $ <["chord" := pchord]> $
    <["rot_z" := prot_z]> $ <["rot_y" := prot_y]> $ <["rot_x" := prot_x]> $
    <["z" := pz]> $ <["y" := py]> $ <["x" := px]> $ <["s" := ps]> ∅ in
  pf ← lift (if PGL_installed
             then PGL_redistribute_planform pf_in [] (s_new self) (rp_spline_type self)
             else s_in ← dict_get pf_in "s"; resample_pchip s_in (s_new self) pf_in);
  modify (λ unknowns, map_fold (λ k v u, <[blade_key (_suffix self) k := v]> u) unknowns pf);;
  chord ← lift (dict_get pf "chord");
  rthick ← lift (dict_get pf "rthick");
  athick ← lift (np_mul chord rthick);
  modify (λ unknowns, <[blade_key (_suffix self) "athick" := athick]> unknowns).

(** *** FFDSpline (lines 415-464) *)

Record FFDSpline := {
  _name : string;
  spline_type : string;          (* [self.spline_options['spline_type']] *)
  nC : nat;
  Cx : list F;
  s : list F;
  Pinit : list F;
  _size : nat;
  scaler : F;
  _init_called : bool;
  spline : Spline;
  _P : option (list F);
}.

(** A call of a method of the strategy made by the component. *)
Inductive call : Type :=
  | initialize_called (x xp yp : list F)
  | evaluate_called (x Cx C : list F).

(** The component, the [unknowns] vector it writes to, and (for the
    statements about which calls are made) the calls made so far. *)
Record FFD_state := {
  self : FFDSpline;
  unknowns : gmap string (list F);
  calls : list call;
}.

Definition with_spline (sp : Spline) (ty : string) (c : FFDSpline) : FFDSpline :=
  {| _name := _name c; spline_type := ty; nC := nC c; Cx := Cx c; s := s c;
     Pinit := Pinit c; _size := _size c; scaler := scaler c;
     _init_called := _init_called c; spline := sp; _P := _P c |}.

Definition with_P (P : list F) (c : FFDSpline) : FFDSpline :=
  {| _name := _name c; spline_type := spline_type c; nC := nC c; Cx := Cx c; s := s c;
     Pinit := Pinit c; _size := _size c; scaler := scaler c;
     _init_called := _init_called c; spline := spline c; _P := Some P |}.

Definition with_nC (n : nat) (c : FFDSpline) : FFDSpline :=
  {| _name := _name c; spline_type := spline_type c; nC := n; Cx := Cx c; s := s c;
     Pinit := Pinit c; _size := _size c; scaler := scaler c;
     _init_called := _init_called c; spline := spline c; _P := _P c |}.

Definition on_self (f : FFDSpline → FFDSpline) (st : FFD_state) : FFD_state :=
  {| self := f (self st); unknowns := unknowns st; calls := calls st |}.
Definition on_unknowns (f : gmap string (list F) → gmap string (list F)) (st : FFD_state)
    : FFD_state :=
  {| self := self st; unknowns := f (unknowns st); calls := calls st |}.
Definition record_call (c : call) (st : FFD_state) : FFD_state :=
  {| self := self st; unknowns := unknowns st; calls := calls st ++ [c] |}.

(** A method of [self.spline]: its result, and the object as it left it. *)
Definition on_spline (method : Spline → result (list F) * Spline) : M FFD_state (list F) :=
  λ st, let '(r, sp) := method (spline (self st)) in
        (r, on_self (with_spline sp (spline_type (self st))) st).

(** [set_spline] (lines 445-448). *)
Definition FFDSpline_set_spline (spline_type : string) : M FFD_state unit :=
  sp ← lift (dict_get spline_dict spline_type);
  modify (on_self (with_spline sp spline_type)).

(** [__init__] (lines 421-443): the option starts as 'bezier'. *)
Definition FFDSpline_init (name : string) (s P Cx : list F) (scaler : F) : FFDSpline :=
  {| _name := name; spline_type := "bezier"; nC := length Cx; Cx := Cx; s := s;
     Pinit := P; _size := length P; scaler := scaler;
     _init_called := false; spline := BezierSpline None; _P := None |}.

(** [c.spline_options['spline_type'] = spline_type], as [add_spline] does
    after it has made the component (lines 591, 603). *)
Definition set_spline_option (spline_type : string) (c : FFDSpline) : FFDSpline :=
  with_spline (spline c) spline_type c.

(** [solve_nonlinear] (lines 450-464).  No statement assigns
    [_init_called], here or elsewhere in the class. *)
Definition FFDSpline_solve_nonlinear (params : gmap string (list F)) : M FFD_state unit :=
  c ← gets self;
  C ← lift (dict_get params (_name c +:+ "_C"));            (* 454 *)
  (if negb (_init_called c) then                            (* 456 *)
     FFDSpline_set_spline (spline_type c);;
     modify (record_call (initialize_called (s c) (Cx c) C));;
     on_spline (λ sp, Spline_initialize sp (s c) (Cx c) C);;
     mret tt
   else mret tt);;
  modify (record_call (evaluate_called (s c) (Cx c) C));;
  P_ ← on_spline (λ sp, Spline_call sp (s c) (Cx c) C);
  modify (on_self (with_P P_));;
  P ← lift (np_add (Pinit c) (np_scale P_ (scaler c)));
  pts ← lift (np_columns (s c) P);
  curv ← lift (curvature pts);
  modify (on_unknowns (λ u, <[_name c +:+ "_curv" := curv]> (<[_name c := P]> u))).

(** *** ComputeAthick (lines 485-500) *)

Definition ComputeAthick_solve_nonlinear (params : gmap string (list F))
    : M (gmap string (list F)) unit :=
  chord ← lift (dict_get params "blade_ae:chord");
  rthick ← lift (dict_get params "blade_ae:rthick");
  athick ← lift (np_mul chord rthick);
  modify (λ unknowns, <["blade_ae:athick" := athick]> unknowns).
End geometry.

Arguments BezierCurve : clear implicits.
Arguments Spline : clear implicits.
Arguments value : clear implicits.
Arguments PGLRedistributedPlanform : clear implicits.
Arguments FFDSpline : clear implicits.
Arguments call : clear implicits.
Arguments FFD_state : clear implicits.

(** The ten channels the resampler reads, and the eleven it writes. *)
Definition input_channels : list string :=
  ["s"; "x"; "y"; "z"; "rot_x"; "rot_y"; "rot_z"; "chord"; "rthick"; "p_le"].
Definition output_channels : list string := input_channels ++ ["athick"].

(** ** More of the module *)

(** *** PGLLoftedBladeSurface.__init__, the configuration loop (lines 675-679)

    Every entry of [config] whose key the component knows replaces the
    default, and every other key is reported by a printed line and left
    out.  The second component holds the printed lines. *)
Definition merge_config {V} (defaults config : gmap string V) : gmap string V * list string :=
  map_fold (λ k v acc,
              if decide (is_Some (acc.1 !! k)) then (<[k := v]> acc.1, acc.2)
              else (acc.1, acc.2 ++ ["unknown config key " +:+ k]))
           (defaults, []) config.

Section geometry_more.
Context {F : Type} `{Scalar F}.
Variable calculate_length : list (F * F * F) → result (list F).

(** *** SplineBase.normdist (lines 35-38) *)

(** [a[0]]. *)
Definition np_first (a : list F) : result F :=
  match a with
  | x :: _ => Ok x
  | [] => Raise IndexError
  end.

(** [(xp - xp[0]) / (xp[-1] - xp[0])]. *)
Definition normdist (xp : list F) : result (list F) :=
  x0 ← np_first xp;
  xn ← np_last xp;
  Ok (np_div_scalar (map (λ x, x ⊖ x0) xp) (xn ⊖ x0)).

(** *** write_blade_planform, the table it hands to [np.savetxt]
    (lines 223-229) *)

(** [names], the columns of the table in their order. *)
Definition planform_columns : list string :=
  ["x"; "y"; "z"; "rot_x"; "rot_y"; "rot_z"; "chord"; "rthick"; "p_le"].

(** [v.shape[0]]: a float has the empty shape. *)
Definition shape0 (v : value F) : result nat :=
  match v with
  | VArray a => Ok (length a)
  | VFloat _ => Raise IndexError
  end.

(** The column that [data[:, i] = v] leaves in an array of [n] rows: an
    array of [n] entries as it is, a float or an array of one entry
    repeated, and a [ValueError] for any other array. *)
Definition column_assign (n : nat) (v : value F) : result (list F) :=
  match v with
  | VFloat x => Ok (replicate n x)
  | VArray a =>
      if decide (length a = n) then Ok a
      else match a with
           | [x] => Ok (replicate n x)
           | _ => Raise ValueError
           end
  end.

(** The loop of lines 228-229, column by column. *)
Fixpoint fill_columns (pf : gmap string (value F)) (n : nat) (names : list string)
    : result (list (list F)) :=
  match names with
  | [] => Ok []
  | name :: names' =>
      v ← dict_get pf name;
      col ← column_assign n v;
      cols ← fill_columns pf n names';
      Ok (col :: cols)
  end.

(** The rows of an array of [n] rows given by its columns; an entry that
    no column holds is the 0 of [np.zeros]. *)
Definition rows_of_columns (n : nat) (cols : list (list F)) : list (list F) :=
  map (λ j, map (λ col, default fzero (col !! j)) cols) (seq 0 n).

(** [data] as [np.savetxt] receives it.  Line 224 calls [calculate_length]
    on the three first columns while they are still zero and does not use
    the result. *)
Definition write_blade_planform_data (pf : gmap string (value F)) : result (list (list F)) :=
  x ← dict_get pf "x";
  n ← shape0 x;                                               (* 223 *)
  _ ← calculate_length (replicate n (fzero, fzero, fzero));   (* 224 *)
  cols ← fill_columns pf n planform_columns;                  (* 228-229 *)
  Ok (rows_of_columns n cols).

(** *** ComputeSmax (lines 503-518) *)

(** [np.array([x, y, z]).T]: the (N, 3) array of the points; rows of
    unequal length do not form a 2-d array. *)
Definition np_columns3 (x y z : list F) : result (list (F * F * F)) :=
  if decide (length x = length y ∧ length y = length z) then Ok (zip3 x y z)
  else Raise ValueError.

(** [solve_nonlinear]: the value it assigns to
    [unknowns['blade_curve_length']]. *)
Definition ComputeSmax_solve_nonlinear (params : gmap string (list F)) : result F :=
  x ← dict_get params "blade_ae:x";
  y ← dict_get params "blade_ae:y";
  z ← dict_get params "blade_ae:z";
  points ← np_columns3 x y z;
  s ← calculate_length points;
  np_last s.

(** *** Names for statements about FFDSpline *)

(** The key of [spline_dict] whose class an object has. *)
Definition Spline_class (sp : Spline F) : string :=
  match sp with
  | pchipSpline => "pchip"
  | BezierSpline _ => "bezier"
  end.

(** The component with another value of [_init_called]. *)
Definition with_init_called (b : bool) (c : FFDSpline F) : FFDSpline F :=
  {| _name := _name c; spline_type := spline_type c; nC := nC c; Cx := Cx c; s := s c;
     Pinit := Pinit c; _size := _size c; scaler := scaler c;
     _init_called := b; spline := spline c; _P := _P c |}.
End geometry_more.

(** ** Concrete runs

    The module as it runs when PGL cannot be imported, on binary64. *)

(** Stand-ins for what only PGL-backed code reaches. *)
Definition NaturalCubicSpline_unreached {F} : list F → list F → list F → result (list F) :=
  λ _ _ _, Raise NotImplementedError.
Definition BezierCurve_update_absent {F} : list F * list F → result (list (F * F)) :=
  λ _, Raise (NameError "BezierCurve").
Definition PGL_redistribute_planform_absent {F}
    : gmap string (list F) → list (list F) → list F → string → result (gmap string (list F)) :=
  λ _ _ _ _, Raise (NameError "PGL").

Definition FFD_run {F} `{Scalar F} :=
  FFDSpline_solve_nonlinear (F:=F) false pchip_spec NaturalCubicSpline_unreached
    curvature_spec BezierCurve_update_absent.
Definition redistribute_run {F} `{Scalar F} :=
  PGLRedistributedPlanform_solve_nonlinear (F:=F) false pchip_spec
    PGL_redistribute_planform_absent.

(** A chord spline with three control points, as
    [add_spline('chord', Cx, spline_type='pchip')] makes it. *)
Definition chord_s : list float := [0; 0.25; 0.5; 0.75; 1]%float.
Definition chord_P : list float := [1; 0.75; 0.5; 0.25; 0.125]%float.
Definition chord_Cx : list float := [0; 0.5; 1]%float.
Definition chord_FFD : FFDSpline float :=
  set_spline_option "pchip" (FFDSpline_init "blade_ae:chord" chord_s chord_P chord_Cx 1%float).
Definition chord_state : FFD_state float :=
  {| self := chord_FFD; unknowns := ∅; calls := [] |}.
Definition chord_params (C : list float) : gmap string (list float) :=
  {[ "blade_ae:chord_C" := C ]}.

(** The value of a computation that returned. *)
Definition from_Ok {A} (default : A) (r : result A) : A :=
  match r with
  | Ok a => a
  | Raise _ => default
  end.

(** Planform tables: a prebent two-station axis, and a table of zeros. *)
Definition prebent_table : list (list float) :=
  [ [0; 0; 0; 0; 0; 0; 2; 1; 0.5];
    [3; 0; 4; 0; 0; 0; 1; 0.5; 0.5] ]%float.
Definition prebent_planform : gmap string (value float) :=
  from_Ok ∅ (read_blade_planform calculate_length_spec prebent_table).
Definition zero_table : list (list float) :=
  [ [0; 0; 0; 0; 0; 0; 0; 0; 0];
    [0; 0; 0; 0; 0; 0; 0; 0; 0] ]%float.
Definition zero_planform : gmap string (value float) :=
  from_Ok ∅ (read_blade_planform calculate_length_spec zero_table).

(** Resampler inputs: the ten channels. *)
Definition planform_params {F} (s_in x y z rot_x rot_y rot_z chord rthick p_le : list F)
    : gmap string (list F) :=
  {[ "blade_ae:s" := s_in; "blade_ae:x" := x; "blade_ae:y" := y; "blade_ae:z" := z;
     "blade_ae:rot_x" := rot_x; "blade_ae:rot_y" := rot_y; "blade_ae:rot_z" := rot_z;
     "blade_ae:chord" := chord; "blade_ae:rthick" := rthick; "blade_ae:p_le" := p_le ]}.
Definition resampler : PGLRedistributedPlanform float :=
  PGLRedistributedPlanform_init "_st" [0; 0.25; 0.5; 1]%float.
(** A tapered planform on three stations. *)
Definition taper_params : gmap string (list float) :=
  (planform_params [0; 0.5; 1] [0; 0; 0] [0; 0; 0] [0; 0.5; 1] [0; 0; 0] [0; 0; 0] [0; 0; 0]
     [2; 1; 0.5] [1; 0.5; 0.25] [0.5; 0.5; 0.5])%float.
(** The same planform with the first station repeated. *)
Definition repeated_station_params : gmap string (list float) :=
  (planform_params [0; 0; 1] [0; 0; 0] [0; 0; 0] [0; 0; 1] [0; 0; 0] [0; 0; 0] [0; 0; 0]
     [2; 2; 0.5] [1; 1; 0.25] [0.5; 0.5; 0.5])%float.

(** The same kinds of input in exact arithmetic. *)
Definition chord_Cx_R : list R := [0; 1 / 2; 1]%R.
Definition chord_C_R : list R := [0; 1 / 5; 0]%R.
Definition chord_state_R : FFD_state R :=
  {| self := set_spline_option "pchip"
               (FFDSpline_init "blade_ae:chord" [0; 1 / 4; 1 / 2; 1] [1; 3 / 4; 1 / 2; 1 / 10]
                  chord_Cx_R 1)%R;
     unknowns := ∅; calls := [] |}.
Definition zero_params_R : gmap string (list R) := {[ "blade_ae:chord_C" := [0; 0; 0]%R ]}.
Definition prebent_table_R : list (list R) :=
  [ [0; 0; 0; 0; 0; 0; 2; 1; 1 / 2];
    [3; 0; 4; 0; 0; 0; 1; 1 / 2; 1 / 2] ]%R.
Definition prebent_planform_R : gmap string (value R) :=
  from_Ok ∅ (read_blade_planform calculate_length_spec prebent_table_R).
Definition resampler_R : PGLRedistributedPlanform R :=
  PGLRedistributedPlanform_init "_st" [0; 1 / 4; 1 / 2; 1]%R.
Definition taper_params_R : gmap string (list R) :=
  (planform_params [0; 1 / 2; 1] [0; 0; 0] [0; 0; 0] [0; 1 / 2; 1] [0; 0; 0] [0; 0; 0] [0; 0; 0]
     [2; 1; 1 / 2] [1; 1 / 2; 1 / 4] [1 / 2; 1 / 2; 1 / 2])%R.

(** The tapered planform without its chord channel, and what the tapered
    planform is resampled to. *)
Definition chordless_params : gmap string (list float) :=
  delete "blade_ae:chord" taper_params.
Definition taper_resampled : gmap string (list float) :=
  (redistribute_run resampler taper_params ∅).2.

(** The table written for the prebent planform. *)
Definition prebent_written : list (list float) :=
  from_Ok [] (write_blade_planform_data calculate_length_spec prebent_planform).

(** The inputs of [ComputeSmax]. *)
Definition axis_params {F} (x y z : list F) : gmap string (list F) :=
  {[ "blade_ae:x" := x; "blade_ae:y" := y; "blade_ae:z" := z ]}.

(** A resampler on the stations of the tapered planform. *)
Definition resampler_same_R : PGLRedistributedPlanform R :=
  PGLRedistributedPlanform_init "_st" [0; 1 / 2; 1]%R.

(** A straight planform on two stations, of unit span and unit largest
    relative thickness. *)
Definition unit_planform_R : gmap string (value R) :=
  {[ "x" := VArray [0; 0]; "y" := VArray [0; 0]; "z" := VArray [0; 1];
     "rot_x" := VArray [0; 0]; "rot_y" := VArray [0; 0]; "rot_z" := VArray [0; 0];
     "chord" := VArray [1 / 10; 1 / 20]; "rthick" := VArray [1; 1 / 2];
     "p_le" := VArray [1 / 2; 1 / 2] ]}%R.

(** * Properties *)

(** ** Arrays and collaborators *)

Section array_facts.
Context {F : Type} `{Scalar F}.

Lemma np_binop_same_length (op : F → F → F) (a b : list F) :
  length a = length b → np_binop op a b = Ok (zip_with op a b).
Proof. intros Hlen. unfold np_binop. by rewrite decide_True. Qed.

Lemma np_binop_raises (op : F → F → F) (a b : list F) (e : exn) :
  np_binop op a b = Raise e → e = ValueError.
Proof.
  unfold np_binop. case_decide; [done|].
  destruct a as [|x [|??]], b as [|y [|??]]; congruence.
Qed.

Lemma np_columns_raises (a b : list F) (e : exn) :
  np_columns a b = Raise e → e = ValueError.
Proof. unfold np_columns. case_decide; congruence. Qed.

Lemma pchip_spec_raises (xp yp x : list F) : pchip_spec xp yp x ≠ Raise ConfigurationError.
Proof. unfold pchip_spec. repeat case_match; congruence. Qed.

Lemma length_gradient_from (a : F) (y : list F) :
  length (gradient_from (a :: y)) = length y.
Proof.
  revert a. induction y as [|b y IH]; intros a; [done|].
  destruct y as [|c y]; [done|].
  change (gradient_from (a :: b :: c :: y))
    with (((c ⊖ a) ⊘ ftwo) :: gradient_from (b :: c :: y)).
  cbn [length]. by rewrite IH.
Qed.

Lemma length_gradient (y : list F) : length (gradient y) = length y.
Proof.
  destruct y as [|a [|b y]]; [done..|].
  unfold gradient. cbn [length]. by rewrite length_gradient_from.
Qed.

Lemma curvature_spec_length (pts : list (F * F)) (cv : list F) :
  curvature_spec pts = Ok cv → length cv = length pts.
Proof.
  unfold curvature_spec. intros [= <-].
  repeat (rewrite ?length_zip_with, ?length_map, ?length_gradient, ?length_fmap). lia.
Qed.
End array_facts.

Lemma name_ne_curv (name : string) : name ≠ name +:+ "_curv".
Proof. induction name as [|ch name IH]; simpl; [discriminate|]. intros [= ?]. auto. Qed.

(** ** The FFD component *)

Section FFDSpline_facts.
Context {F : Type} `{Scalar F}.
Variable PGL_installed : bool.
Variable pchip NaturalCubicSpline : list F → list F → list F → result (list F).
Variable curvature : list (F * F) → result (list F).
Variable BezierCurve_update : list F * list F → result (list (F * F)).

#[local] Abbreviation solve_nonlinear :=
  (FFDSpline_solve_nonlinear PGL_installed pchip NaturalCubicSpline curvature
     BezierCurve_update).
#[local] Abbreviation initialize :=
  (Spline_initialize PGL_installed pchip NaturalCubicSpline BezierCurve_update).
#[local] Abbreviation evaluate := (Spline_call pchip NaturalCubicSpline BezierCurve_update).

(** An evaluation in which the strategy and [curvature] return. *)
Lemma solve_nonlinear_returns (st : FFD_state F) (params : gmap string (list F))
    (C r0 δ curv : list F) (sp0 sp1 sp2 : Spline F) (N : nat) :
  let c := self st in
  let P_out := zip_with (λ p d, p ⊕ d ⊗ scaler c) (Pinit c) δ in
  _init_called c = false →
  params !! (_name c +:+ "_C") = Some C →
  length (s c) = N →
  length (Pinit c) = N →
  spline_dict !! spline_type c = Some sp0 →
  initialize sp0 (s c) (Cx c) C = (Ok r0, sp1) →
  evaluate sp1 (s c) (Cx c) C = (Ok δ, sp2) →
  length δ = N →
  curvature (zip (s c) P_out) = Ok curv →
  ∃ st', solve_nonlinear params st = (Ok tt, st') ∧
    unknowns st' !! _name c = Some P_out ∧
    unknowns st' !! (_name c +:+ "_curv") = Some curv ∧
    length P_out = N.
Proof.
  intros c P_out Hflag HC Hs HP Hsp0 Hinit Heval Hδ Hcurv.
  assert (HlenP : length P_out = N).
  { unfold P_out. rewrite length_zip_with. lia. }
  assert (Hadd : np_add (Pinit c) (np_scale δ (scaler c)) = Ok P_out).
  { unfold np_add. rewrite np_binop_same_length.
    - unfold np_scale, P_out. by rewrite zip_with_fmap_r.
    - unfold np_scale. rewrite length_map. lia. }
  assert (Hcols : np_columns (s c) P_out = Ok (zip (s c) P_out)).
  { unfold np_columns. rewrite decide_True; [done|lia]. }
  destruct st as [c0 u ev]. cbn [self] in c. subst c.
  eexists. split.
  - unfold FFDSpline_solve_nonlinear, FFDSpline_set_spline, on_spline, dict_get,
      mbind, M_bind, mret, M_ret, lift, gets, modify.
    cbn [self unknowns calls]. rewrite HC, Hflag. cbn [negb].
    rewrite Hsp0. cbn [self on_self record_call with_spline spline spline_type
      _name s Cx Pinit scaler unknowns calls].
    rewrite Hinit. cbn [self on_self record_call with_spline spline spline_type
      _name s Cx Pinit scaler unknowns calls].
    rewrite Heval. cbn [self on_self record_call with_spline with_P spline spline_type
      _name s Cx Pinit scaler unknowns calls].
    rewrite Hadd, Hcols, Hcurv. reflexivity.
  - cbn [unknowns on_unknowns]. split_and!.
    + rewrite lookup_insert_ne by (symmetry; apply name_ne_curv).
      by rewrite lookup_insert_eq.
    + by rewrite lookup_insert_eq.
    + done.
Qed.

(** C1: one evaluation writes [P_init + delta * scaler], with [delta] what
    the selected strategy returns for [(s, Cx, C)], and the curvature of
    the pairs [(s, P_out)]; both outputs have the length N of the
    baseline. *)
Theorem FFDSpline_solve_nonlinear_spec (st : FFD_state F) (params : gmap string (list F))
    (C r0 δ curv : list F) (sp0 sp1 sp2 : Spline F) (N : nat) :
  let c := self st in
  let P_out := zip_with (λ p d, p ⊕ d ⊗ scaler c) (Pinit c) δ in
  (∀ pts cv, curvature pts = Ok cv → length cv = length pts) →
  _init_called c = false →
  params !! (_name c +:+ "_C") = Some C →
  length (s c) = N →
  length (Pinit c) = N →
  spline_dict !! spline_type c = Some sp0 →
  initialize sp0 (s c) (Cx c) C = (Ok r0, sp1) →
  evaluate sp1 (s c) (Cx c) C = (Ok δ, sp2) →
  length δ = N →
  curvature (zip (s c) P_out) = Ok curv →
  ∃ st', solve_nonlinear params st = (Ok tt, st') ∧
    unknowns st' !! _name c = Some P_out ∧
    unknowns st' !! (_name c +:+ "_curv") = Some curv ∧
    length P_out = N ∧ length curv = N.
Proof.
  intros c P_out Hcurv_len Hflag HC Hs HP Hsp0 Hinit Heval Hδ Hcurv.
  destruct (solve_nonlinear_returns st params C r0 δ curv sp0 sp1 sp2 N)
    as (st' & Hrun & HP_out & Hcv & Hlen); [done..|].
  exists st'. split_and!; [done..|].
  rewrite (Hcurv_len _ _ Hcurv), length_zip. unfold P_out, c in *. rewrite Hs, Hlen. lia.
Qed.

(** C8 (as the code has it): a name that is not a key of [spline_dict]
    makes [set_spline] raise Python's [KeyError] for that name, and the
    component keeps the strategy and the option it had. *)
Theorem FFDSpline_set_spline_unknown (spline_type : string) (st : FFD_state F) :
  spline_type ≠ "pchip" → spline_type ≠ "bezier" →
  FFDSpline_set_spline spline_type st = (Raise (KeyError spline_type), st).
Proof.
  intros Hp Hb. unfold FFDSpline_set_spline, dict_get, spline_dict, mbind, M_bind, lift.
  rewrite lookup_insert_ne by congruence.
  by rewrite lookup_singleton_ne by congruence.
Qed.

Lemma FFDSpline_set_spline_known (spline_type : string) (sp : Spline F) (st : FFD_state F) :
  spline_dict !! spline_type = Some sp →
  FFDSpline_set_spline spline_type st = (Ok tt, on_self (with_spline sp spline_type) st).
Proof.
  intros Hsp. unfold FFDSpline_set_spline, dict_get, mbind, M_bind, lift, modify.
  by rewrite Hsp.
Qed.

(** *** What an evaluation can raise, and what it leaves behind *)

Section no_check.
Hypothesis pchip_raises : ∀ xp yp x, pchip xp yp x ≠ Raise ConfigurationError.
Hypothesis NaturalCubicSpline_raises :
  ∀ xp yp x, NaturalCubicSpline xp yp x ≠ Raise ConfigurationError.
Hypothesis curvature_raises : ∀ pts, curvature pts ≠ Raise ConfigurationError.
Hypothesis BezierCurve_update_raises :
  ∀ cps, BezierCurve_update cps ≠ Raise ConfigurationError.

Lemma evaluate_raises (sp : Spline F) (x Cx C : list F) :
  (evaluate sp x Cx C).1 ≠ Raise ConfigurationError.
Proof using pchip_raises NaturalCubicSpline_raises BezierCurve_update_raises.
  destruct sp as [|[B|]]; cbn; [apply pchip_raises| |done].
  destruct (BezierCurve_update (Cx, C)) as [pts|e] eqn:Hupd; cbn.
  - apply NaturalCubicSpline_raises.
  - intros [= ->]. by apply (BezierCurve_update_raises (Cx, C)).
Qed.

Lemma initialize_raises (sp : Spline F) (x xp yp : list F) :
  (initialize sp x xp yp).1 ≠ Raise ConfigurationError.
Proof using pchip_raises NaturalCubicSpline_raises BezierCurve_update_raises.
  destruct sp as [|B]; [apply evaluate_raises|].
  unfold Spline_initialize, BezierCurve_new. destruct PGL_installed; [|done].
  apply evaluate_raises.
Qed.

(** C9 (as the code has it): the component never reads [nC] and makes
    no check of the length of [C]; it hands [C] to the strategy as it
    is.  So an evaluation raises only what a dictionary lookup, the
    strategy, numpy or [curvature] raises, never a [ConfigurationError]
    of its own; and whenever it raises, [unknowns] is as it was (no
    output is produced). *)
Theorem FFDSpline_solve_nonlinear_unchecked (params : gmap string (list F))
    (st : FFD_state F) :
  (solve_nonlinear params st).1 ≠ Raise ConfigurationError ∧
  (∀ e, (solve_nonlinear params st).1 = Raise e →
        unknowns (solve_nonlinear params st).2 = unknowns st) ∧
  (∀ n, (solve_nonlinear params (on_self (with_nC n) st)).1
        = (solve_nonlinear params st).1).
Proof using pchip_raises NaturalCubicSpline_raises curvature_raises
  BezierCurve_update_raises.
  destruct st as [c u ev].
  unfold FFDSpline_solve_nonlinear, FFDSpline_set_spline, on_spline, dict_get,
    mbind, M_bind, mret, M_ret, lift, gets, modify.
  cbn [self unknowns calls on_self with_nC _name _init_called spline_type s Cx
       Pinit scaler spline].
  repeat first
    [ progress cbn [self unknowns calls on_self on_unknowns record_call with_spline
        with_P with_nC _name _init_called spline_type s Cx Pinit scaler spline
        negb fst snd]
    | match goal with
      | |- context [params !! ?k] => destruct (params !! k) eqn:?
      | |- context [_init_called c] => destruct (_init_called c) eqn:?
      | |- context [spline_dict !! ?k] => destruct (spline_dict (F:=F) !! k) eqn:?
      | |- context [initialize ?sp ?x ?xp ?yp] =>
          pose proof (initialize_raises sp x xp yp);
          destruct (initialize sp x xp yp) as [[?|?] ?] eqn:?
      | |- context [evaluate ?sp ?x ?xp ?yp] =>
          pose proof (evaluate_raises sp x xp yp);
          destruct (evaluate sp x xp yp) as [[?|?] ?] eqn:?
      | |- context [np_add ?a ?b] =>
          pose proof (np_binop_raises fadd a b);
          destruct (np_add a b) eqn:?
      | |- context [np_columns ?a ?b] =>
          pose proof (np_columns_raises a b);
          destruct (np_columns a b) eqn:?
      | |- context [curvature ?a] =>
          pose proof (curvature_raises a);
          destruct (curvature a) eqn:?
      end ].
  all: split_and!; [| |done]; [|by intros ? [= ?]].
  all: try done.
  all: intros [= ->]; naive_solver.
Qed.
End no_check.

(** The flag [_init_called] is read and never assigned: an evaluation
    leaves it as it found it. *)
Lemma FFDSpline_solve_nonlinear_init_called (params : gmap string (list F))
    (st : FFD_state F) :
  _init_called (self (solve_nonlinear params st).2) = _init_called (self st).
Proof.
  destruct st as [c u ev].
  unfold FFDSpline_solve_nonlinear, FFDSpline_set_spline, on_spline, dict_get,
    mbind, M_bind, mret, M_ret, lift, gets, modify.
  repeat first
    [ progress cbn [self unknowns calls on_self on_unknowns record_call with_spline
        with_P _name _init_called spline_type s Cx Pinit scaler spline negb fst snd]
    | match goal with
      | |- context [params !! ?k] => destruct (params !! k) eqn:?
      | |- context [negb (_init_called c)] => destruct (_init_called c) eqn:?
      | |- context [spline_dict !! ?k] => destruct (spline_dict (F:=F) !! k) eqn:?
      | |- context [initialize ?sp ?x ?xp ?yp] =>
          destruct (initialize sp x xp yp) as [[?|?] ?] eqn:?
      | |- context [evaluate ?sp ?x ?xp ?yp] =>
          destruct (evaluate sp x xp yp) as [[?|?] ?] eqn:?
      | |- context [np_add ?a ?b] => destruct (np_add a b) eqn:?
      | |- context [np_columns ?a ?b] => destruct (np_columns a b) eqn:?
      | |- context [curvature ?a] => destruct (curvature a) eqn:?
      end ]; done.
Qed.
(** With the flag false, as [__init__] leaves it, an evaluation that
    returns has called [initialize] and then the strategy itself. *)
Lemma FFDSpline_solve_nonlinear_calls (params : gmap string (list F)) (st : FFD_state F) :
  _init_called (self st) = false →
  (solve_nonlinear params st).1 = Ok tt →
  ∃ C, params !! (_name (self st) +:+ "_C") = Some C ∧
    calls (solve_nonlinear params st).2
    = calls st ++ [ initialize_called (s (self st)) (Cx (self st)) C;
                    evaluate_called (s (self st)) (Cx (self st)) C ].
Proof.
  destruct st as [c u ev]. cbn [self calls]. intros Hflag.
  unfold FFDSpline_solve_nonlinear, FFDSpline_set_spline, on_spline, dict_get,
    mbind, M_bind, mret, M_ret, lift, gets, modify.
  cbn [self]. rewrite Hflag.
  repeat first
    [ progress cbn [self unknowns calls on_self on_unknowns record_call with_spline
        with_P _name _init_called spline_type s Cx Pinit scaler spline negb fst snd]
    | match goal with
      | |- context [params !! ?k] => destruct (params !! k) eqn:?
      | |- context [spline_dict !! ?k] => destruct (spline_dict (F:=F) !! k) eqn:?
      | |- context [initialize ?sp ?x ?xp ?yp] =>
          destruct (initialize sp x xp yp) as [[?|?] ?] eqn:?
      | |- context [evaluate ?sp ?x ?xp ?yp] =>
          destruct (evaluate sp x xp yp) as [[?|?] ?] eqn:?
      | |- context [np_add ?a ?b] => destruct (np_add a b) eqn:?
      | |- context [np_columns ?a ?b] => destruct (np_columns a b) eqn:?
      | |- context [curvature ?a] => destruct (curvature a) eqn:?
      end ]; try done.
  intros _. eexists. split; [done|]. by rewrite <- app_assoc.
Qed.
End FFDSpline_facts.

(** C1 on the chord spline: the baseline plus the pchip perturbation. *)
Lemma FFDSpline_solve_nonlinear_spec_witness :
  ∃ st' curv,
    FFD_run (chord_params [0; 0.25; 0]%float) chord_state = (Ok tt, st') ∧
    unknowns st' !! "blade_ae:chord" = Some [1; 0.9375; 0.75; 0.4375; 0.125]%float ∧
    unknowns st' !! "blade_ae:chord_curv" = Some curv ∧
    length curv = 5.
Proof.
  edestruct (FFDSpline_solve_nonlinear_spec false pchip_spec NaturalCubicSpline_unreached
               curvature_spec BezierCurve_update_absent chord_state
               (chord_params [0; 0.25; 0]%float))
    as (st' & Hrun & HP & Hcurv & _ & Hlen).
  - apply curvature_spec_length.
  - reflexivity.
  - reflexivity.
  - reflexivity.
  - reflexivity.
  - reflexivity.
  - vm_compute. reflexivity.
  - vm_compute. reflexivity.
  - reflexivity.
  - vm_compute. reflexivity.
  - exists st'. eexists. split_and!; [exact Hrun|exact HP|exact Hcurv|exact Hlen].
Defined.

(** C8: asking for 'akima' raises [KeyError], not [ConfigurationError]. *)
Lemma FFDSpline_set_spline_akima :
  (FFDSpline_set_spline "akima" chord_state).1 = Raise (KeyError "akima") ∧
  (FFDSpline_set_spline "akima" chord_state).1 ≠ Raise ConfigurationError.
Proof. split; [reflexivity|]. vm_compute. discriminate. Qed.

Lemma FFDSpline_set_spline_unknown_witness :
  FFDSpline_set_spline "akima" chord_state = (Raise (KeyError "akima"), chord_state).
Proof. apply FFDSpline_set_spline_unknown; discriminate. Defined.

(** C9: three control abscissas and two control values: the strategy is
    called with them, and it is scipy's [ValueError] that comes back. *)
Lemma FFDSpline_short_C_raises_ValueError :
  length [0; 0.25]%float ≠ nC chord_FFD ∧
  (FFD_run (chord_params [0; 0.25]%float) chord_state).1 = Raise ValueError ∧
  (FFD_run (chord_params [0; 0.25]%float) chord_state).1 ≠ Raise ConfigurationError.
Proof. split_and!; [vm_compute; lia|reflexivity|]. vm_compute. discriminate. Qed.

Lemma FFDSpline_solve_nonlinear_unchecked_witness :
  let run := FFD_run (chord_params [0; 0.25]%float) in
  (run chord_state).1 ≠ Raise ConfigurationError ∧
  (∀ e, (run chord_state).1 = Raise e → unknowns (run chord_state).2 = unknowns chord_state) ∧
  (∀ n, (run (on_self (with_nC n) chord_state)).1 = (run chord_state).1).
Proof.
  apply FFDSpline_solve_nonlinear_unchecked.
  - apply pchip_spec_raises.
  - discriminate.
  - discriminate.
  - discriminate.
Defined.

(** C3: two evaluations in a row, and [initialize] is called in both. *)
Lemma FFDSpline_initialize_called_again :
  let st1 := (FFD_run (chord_params [0; 0.25; 0]%float) chord_state).2 in
  let r2 := FFD_run (chord_params [0; 0.5; 0]%float) st1 in
  r2.1 = Ok tt ∧
  _init_called (self st1) = false ∧
  calls r2.2 =
    [ initialize_called chord_s chord_Cx [0; 0.25; 0]%float;
      evaluate_called chord_s chord_Cx [0; 0.25; 0]%float;
      initialize_called chord_s chord_Cx [0; 0.5; 0]%float;
      evaluate_called chord_s chord_Cx [0; 0.5; 0]%float ].
Proof. vm_compute. split_and!; reflexivity. Qed.

(** ** The resampler *)

Lemma blade_key_inj (suffix : string) : Inj (=) (=) (blade_key suffix).
Proof.
  intros k1 k2 Heq. unfold blade_key in Heq.
  by repeat apply (inj (String.app _)) in Heq.
Qed.

Section resampler_facts.
Context {F : Type} `{Scalar F}.
Variable PGL_installed : bool.
Variable pchip : list F → list F → list F → result (list F).
Variable PGL_redistribute_planform :
  gmap string (list F) → list (list F) → list F → string → result (gmap string (list F)).

#[local] Abbreviation solve_nonlinear :=
  (PGLRedistributedPlanform_solve_nonlinear PGL_installed pchip PGL_redistribute_planform).

(** The loop of lines 410-411: every entry of [pf] is in [unknowns]
    afterwards, under its prefixed key. *)
Lemma copy_planform_lookup (suffix : string) (pf unknowns : gmap string (list F))
    (k : string) (v : list F) :
  pf !! k = Some v →
  map_fold (λ k v u, <[blade_key suffix k := v]> u) unknowns pf !! blade_key suffix k
  = Some v.
Proof.
  revert k v.
  apply (map_fold_weak_ind (λ r m, ∀ k v, m !! k = Some v → r !! blade_key suffix k = Some v)).
  - intros k v. by rewrite lookup_empty.
  - intros i x m r Hi IH k v. destruct (decide (i = k)) as [->|Hne].
    + rewrite lookup_insert_eq. intros [= ->]. by rewrite lookup_insert_eq.
    + rewrite lookup_insert_ne by done. intros Hk.
      rewrite lookup_insert_ne; [by apply IH|].
      intros Heq. by apply blade_key_inj in Heq.
Qed.

(** The fallback loop of lines 405-408 when no channel makes [pchip] raise. *)
Lemma resample_pchip_Ok (s_in s_out : list F) (g : list F → list F)
    (pf_in : gmap string (list F)) :
  (∀ k v, pf_in !! k = Some v → pchip s_in v s_out = Ok (g v)) →
  resample_pchip pchip s_in s_out pf_in = Ok (g <$> pf_in).
Proof.
  unfold resample_pchip.
  apply (map_fold_weak_ind (λ r m,
    (∀ k v, m !! k = Some v → pchip s_in v s_out = Ok (g v)) → r = Ok (g <$> m))).
  - intros _. by rewrite fmap_empty.
  - intros i x m r Hi IH Hall. rewrite IH.
    + cbn. rewrite (Hall i x) by apply lookup_insert_eq. cbn. by rewrite fmap_insert.
    + intros k v Hk. apply (Hall k v). rewrite lookup_insert_ne; [done|].
      intros ->. congruence.
Qed.

(** C2: after a call of the resampler that returns, whichever of the two
    paths it took, the output [athick] is the product, as numpy computes
    it afresh, of the output [chord] and [rthick]; the same holds for
    [ComputeAthick] and its two inputs. *)
Theorem athick_is_chord_times_rthick :
  (∀ self params unknowns unknowns',
    solve_nonlinear self params unknowns = (Ok tt, unknowns') →
    ∃ chord rthick athick,
      unknowns' !! blade_key (_suffix self) "chord" = Some chord ∧
      unknowns' !! blade_key (_suffix self) "rthick" = Some rthick ∧
      unknowns' !! blade_key (_suffix self) "athick" = Some athick ∧
      np_mul chord rthick = Ok athick ∧
      (length chord = length rthick → athick = zip_with fmul chord rthick)) ∧
  (∀ params unknowns unknowns',
    ComputeAthick_solve_nonlinear params unknowns = (Ok tt, unknowns') →
    ∃ chord rthick athick,
      params !! "blade_ae:chord" = Some chord ∧
      params !! "blade_ae:rthick" = Some rthick ∧
      unknowns' !! "blade_ae:athick" = Some athick ∧
      np_mul chord rthick = Ok athick ∧
      (length chord = length rthick → athick = zip_with fmul chord rthick)).
Proof.
  split.
  - intros self params u u'.
    unfold PGLRedistributedPlanform_solve_nonlinear, dict_get, mbind, M_bind, lift, modify.
    repeat match goal with
      | |- context [params !! ?k] => destruct (params !! k) eqn:?; [|done]
      end.
    match goal with
    | |- context [if PGL_installed then ?a else ?b] =>
        destruct (if PGL_installed then a else b) as [pf|e]; [|done]
    end.
    cbv beta iota.
    destruct (pf !! "chord") as [chord|] eqn:Hchord; [|done].
    destruct (pf !! "rthick") as [rthick|] eqn:Hrthick; [|done].
    destruct (np_mul chord rthick) as [athick|e] eqn:Hmul; [|done].
    intros [= <-]. exists chord, rthick, athick. split_and!.
    + rewrite lookup_insert_ne by (intros Heq; by apply blade_key_inj in Heq).
      by apply copy_planform_lookup.
    + rewrite lookup_insert_ne by (intros Heq; by apply blade_key_inj in Heq).
      by apply copy_planform_lookup.
    + by rewrite lookup_insert_eq.
    + done.
    + intros Hlen. unfold np_mul in Hmul. rewrite np_binop_same_length in Hmul by done.
      congruence.
  - intros params u u'.
    unfold ComputeAthick_solve_nonlinear, dict_get, mbind, M_bind, lift, modify.
    destruct (params !! "blade_ae:chord") as [chord|]; [|done].
    destruct (params !! "blade_ae:rthick") as [rthick|]; [|done].
    destruct (np_mul chord rthick) as [athick|e] eqn:Hmul; [|done].
    intros [= <-]. exists chord, rthick, athick. split_and!; [done|done| |done|].
    + by rewrite lookup_insert_eq.
    + intros Hlen. unfold np_mul in Hmul. rewrite np_binop_same_length in Hmul by done.
      congruence.
Qed.
End resampler_facts.

(** ** The piecewise cubic *)

Section pchip_facts.
Context {F : Type} `{Scalar F}.

Lemma length_diffs (a : list F) : length (diffs a) = pred (length a).
Proof. unfold diffs. rewrite length_zip_with. destruct a; cbn [tail length pred]; lia. Qed.

Lemma length_pchip_inner (hk mk : list F) :
  length mk = length hk → 2 ≤ length hk → length (pchip_inner hk mk) = length hk.
Proof.
  revert mk. induction hk as [|h0 hk IH]; intros mk Hlen Hge; [cbn in Hge; lia|].
  destruct hk as [|h1 hk]; [cbn in Hge; lia|].
  destruct mk as [|m0 [|m1 mk]]; [done..|].
  destruct hk as [|h2 hk]; [done|].
  change (pchip_inner (h0 :: h1 :: h2 :: hk) (m0 :: m1 :: mk))
    with (pchip_interior h0 h1 m0 m1 :: pchip_inner (h1 :: h2 :: hk) (m1 :: mk)).
  cbn [length]. rewrite IH; [done| |cbn; lia].
  cbn [length] in Hlen |- *. lia.
Qed.

Lemma length_pchip_derivatives (xp yp : list F) :
  length yp = length xp → 2 ≤ length xp →
  length (pchip_derivatives xp yp) = length xp.
Proof.
  intros Hlen Hge. unfold pchip_derivatives.
  pose proof (length_diffs xp) as Hh. pose proof (length_diffs yp) as Hy.
  assert (Hm : length (zip_with fdiv (diffs yp) (diffs xp)) = length (diffs xp)).
  { rewrite length_zip_with. lia. }
  destruct (diffs xp) as [|h0 [|h1 hk]] eqn:Ehk; [cbn in Hh; lia| |].
  - destruct (zip_with fdiv (diffs yp) [h0]) as [|m [|??]]; [done| |done].
    cbn in Hh |- *. lia.
  - destruct (zip_with fdiv (diffs yp) (h0 :: h1 :: hk)) as [|m0 [|m1 mk]] eqn:Emk; [done..|].
    cbn [length]. rewrite length_pchip_inner; [cbn [length] in Hh |- *; lia|done|cbn; lia].
Qed.

Lemma pchip_eval_last (x0 x1 y0 y1 d0 d1 : F) (yp dp : list F) (x : F) :
  pchip_eval [x0; x1] (y0 :: y1 :: yp) (d0 :: d1 :: dp) x = hermite x0 x1 y0 y1 d0 d1 x.
Proof. reflexivity. Qed.

Lemma pchip_eval_step (x0 x1 x2 y0 y1 d0 d1 : F) (xp yp dp : list F) (x : F) :
  pchip_eval (x0 :: x1 :: x2 :: xp) (y0 :: y1 :: yp) (d0 :: d1 :: dp) x
  = if fltb x x1 then hermite x0 x1 y0 y1 d0 d1 x
    else pchip_eval (x1 :: x2 :: xp) (y1 :: yp) (d1 :: dp) x.
Proof. reflexivity. Qed.

Lemma pchip_inner_last (h0 h1 m0 m1 : F) (mk : list F) :
  pchip_inner [h0; h1] (m0 :: m1 :: mk)
  = [pchip_interior h0 h1 m0 m1; pchip_edge h1 h0 m1 m0].
Proof. reflexivity. Qed.

Lemma pchip_inner_step (h0 h1 h2 m0 m1 : F) (hk mk : list F) :
  pchip_inner (h0 :: h1 :: h2 :: hk) (m0 :: m1 :: mk)
  = pchip_interior h0 h1 m0 m1 :: pchip_inner (h1 :: h2 :: hk) (m1 :: mk).
Proof. reflexivity. Qed.

Lemma diffs_cons (x0 x1 : F) (a : list F) :
  diffs (x0 :: x1 :: a) = (x1 ⊖ x0) :: diffs (x1 :: a).
Proof. reflexivity. Qed.

Lemma Forall_zip_with {A B C} (P : A → Prop) (Q : B → Prop) (R : C → Prop)
    (f : A → B → C) (a : list A) (b : list B) :
  (∀ x y, P x → Q y → R (f x y)) → Forall P a → Forall Q b → Forall R (zip_with f a b).
Proof.
  intros Hf Ha. revert b. induction Ha as [|x a Hx Ha IH]; intros b Hb; [constructor|].
  destruct Hb as [|y b Hy Hb]; [constructor|]. cbn. constructor; auto.
Qed.

Lemma pchip_spec_Ok (xp yp x : list F) :
  2 ≤ length xp → length yp = length xp → strictly_increasing xp = true →
  pchip_spec xp yp x = Ok (map (pchip_eval xp yp (pchip_derivatives xp yp)) x).
Proof.
  intros Hge Hlen Hinc. unfold pchip_spec.
  rewrite decide_False by lia. rewrite decide_False by (intros ?; lia).
  by rewrite Hinc.
Qed.
End pchip_facts.

(** *** In exact arithmetic *)

Section pchip_real.
#[local] Open Scope R_scope.

Lemma Rltb_true (x y : R) : Rltb x y = true ↔ x < y.
Proof. unfold Rltb. destruct (Rlt_dec x y); split; (done || lra). Qed.

Lemma Rltb_false (x y : R) : Rltb x y = false ↔ y <= x.
Proof. unfold Rltb. destruct (Rlt_dec x y); split; (done || lra). Qed.

Lemma Reqb_true (x y : R) : Reqb x y = true ↔ x = y.
Proof. unfold Reqb. destruct (Req_dec_T x y); split; (done || lra). Qed.

Lemma Reqb_refl (x : R) : Reqb x x = true.
Proof. by apply Reqb_true. Qed.

Ltac real_ops :=
  unfold hermite, pchip_edge, pchip_interior, fsign, fabs, fsquare, fthree, ftwo in *;
  cbn [fzero fone fadd fsub fmul fdiv fltb feqb fsqrt real] in *.

Lemma hermite_left (x0 x1 y0 y1 d0 d1 : R) : hermite x0 x1 y0 y1 d0 d1 x0 = y0.
Proof. real_ops. unfold Rdiv. ring. Qed.

Lemma hermite_right (x0 x1 y0 y1 d0 d1 : R) :
  x0 < x1 → hermite x0 x1 y0 y1 d0 d1 x1 = y1.
Proof. intros Hlt. real_ops. field. lra. Qed.

Lemma hermite_identity (x0 x1 x : R) : x0 < x1 → hermite x0 x1 x0 x1 1 1 x = x.
Proof. intros Hlt. real_ops. field. lra. Qed.

Lemma hermite_zero (x0 x1 x : R) : hermite x0 x1 0 0 0 0 x = 0.
Proof. real_ops. unfold Rdiv. ring. Qed.

Lemma strictly_increasing_cons (x0 x1 : R) (a : list R) :
  strictly_increasing (x0 :: x1 :: a) = true ↔ x0 < x1 ∧ strictly_increasing (x1 :: a) = true.
Proof.
  change (strictly_increasing (x0 :: x1 :: a))
    with (fltb x0 x1 && strictly_increasing (x1 :: a)).
  rewrite andb_true_iff. cbn [fltb real]. by rewrite Rltb_true.
Qed.

Lemma strictly_increasing_lookup (x0 : R) (a : list R) (j : nat) (x : R) :
  strictly_increasing (x0 :: a) = true → a !! j = Some x → x0 < x.
Proof.
  revert x0 j. induction a as [|x1 a IH]; intros x0 j Hinc Hj; [done|].
  apply strictly_increasing_cons in Hinc as [Hlt Hinc].
  destruct j as [|j]; cbn in Hj.
  - by injection Hj as <-.
  - pose proof (IH x1 j Hinc Hj). lra.
Qed.

(** The piecewise cubic takes the ordinate of every point it is fitted
    to, whatever the slopes. *)
Lemma pchip_eval_node (xp yp dp : list R) (i : nat) (x y : R) :
  strictly_increasing xp = true → length yp = length xp → length dp = length xp →
  xp !! i = Some x → yp !! i = Some y → 2 ≤ length xp →
  pchip_eval xp yp dp x = y.
Proof.
  revert yp dp i. induction xp as [|x0 xp IH]; intros yp dp i Hinc Hy Hd Hi Hyi Hge; [done|].
  destruct xp as [|x1 xp]; [cbn in Hge; lia|].
  destruct yp as [|y0 [|y1 yp]]; [done..|]. destruct dp as [|d0 [|d1 dp]]; [done..|].
  apply strictly_increasing_cons in Hinc as [Hlt Hinc].
  destruct xp as [|x2 xp].
  - rewrite pchip_eval_last. destruct i as [|[|i]]; cbn in Hi, Hyi; simplify_eq.
    + apply hermite_left.
    + by apply hermite_right.
  - rewrite pchip_eval_step. destruct i as [|i]; cbn in Hi, Hyi; simplify_eq.
    + cbn [fltb real]. rewrite (proj2 (Rltb_true x x1)) by done. apply hermite_left.
    + assert (Hle : x1 <= x).
      { destruct i as [|i]; cbn in Hi; [injection Hi as ->; lra|].
        left. by eapply strictly_increasing_lookup. }
      cbn [fltb real]. rewrite (proj2 (Rltb_false x x1)) by done.
      apply (IH _ _ i); [done|cbn in *; lia|cbn in *; lia|done|done|cbn; lia].
Qed.

Lemma pchip_eval_nodes (xp yp dp : list R) :
  strictly_increasing xp = true → length yp = length xp → length dp = length xp →
  2 ≤ length xp → map (pchip_eval xp yp dp) xp = yp.
Proof.
  intros Hinc Hy Hd Hge. apply list_eq. intros i.
  change (map (pchip_eval xp yp dp) xp) with (pchip_eval xp yp dp <$> xp).
  rewrite list_lookup_fmap.
  destruct (xp !! i) as [x|] eqn:Hi; cbn.
  - destruct (lookup_lt_is_Some_2 yp i) as [y Hyi].
    { rewrite Hy. by eapply lookup_lt_Some. }
    rewrite Hyi. f_equal. by eapply pchip_eval_node.
  - symmetry. apply lookup_ge_None. rewrite Hy. by apply lookup_ge_None.
Qed.

(** C5: the pchip strategy evaluated at its control abscissas returns the
    control ordinates: every output is within 1e-10 of its ordinate
    (it is equal to it). *)
Theorem pchipSpline_interpolates (NaturalCubicSpline : list R → list R → list R → result (list R))
    (BezierCurve_update : list R * list R → result (list (R * R))) (Cx C : list R) :
  2 ≤ length Cx → length C = length Cx → strictly_increasing Cx = true →
  ∃ out,
    (Spline_call pchip_spec NaturalCubicSpline BezierCurve_update pchipSpline Cx Cx C).1
      = Ok out ∧
    Forall2 (λ o c, Rabs (o - c) <= / 10 ^ 10) out C ∧
    out = C.
Proof.
  intros Hge Hlen Hinc. exists C. cbn [Spline_call fst].
  rewrite pchip_spec_Ok by done.
  rewrite pchip_eval_nodes; [|done..|by apply length_pchip_derivatives|done].
  split_and!; [done| |done].
  apply Forall2_same_length_lookup_2; [done|]. intros i o c Ho Hc. simplify_eq.
  rewrite Rminus_diag, Rabs_R0. left. apply Rinv_0_lt_compat, pow_lt. lra.
Qed.

(** *** All ordinates zero *)

Lemma pchip_edge_zero (h0 h1 : R) : pchip_edge h0 h1 0 0 = 0.
Proof.
  real_ops. replace (((1 + 1) * h0 + h1) * 0 - h0 * 0) with 0 by ring.
  unfold Rdiv. rewrite Rmult_0_l. unfold Rltb, Reqb.
  repeat (case_match; cbn [negb andb]; try lra); done.
Qed.

Lemma pchip_interior_zero (h0 h1 m0 : R) : pchip_interior h0 h1 m0 0 = 0.
Proof. real_ops. rewrite Reqb_refl. by rewrite orb_true_r. Qed.

Lemma diffs_zero (a : list R) : Forall (eq 0) a → Forall (eq 0) (diffs a).
Proof.
  intros Ha. unfold diffs. eapply Forall_zip_with; [|exact Ha|by apply Forall_tail].
  intros x y <- <-. cbn. lra.
Qed.

Lemma secants_zero (a hk : list R) : Forall (eq 0) a → Forall (eq 0) (zip_with fdiv a hk).
Proof.
  intros Ha. eapply (Forall_zip_with _ (λ _, True)); [|exact Ha|by apply Forall_true].
  intros x y <- _. cbn. unfold Rdiv. ring.
Qed.

Lemma pchip_inner_zero (hk mk : list R) :
  Forall (eq 0) mk → Forall (eq 0) (pchip_inner hk mk).
Proof.
  revert mk. induction hk as [|h0 hk IH]; intros mk Hmk; [constructor|].
  destruct hk as [|h1 hk]; [by destruct mk|].
  destruct mk as [|m0 [|m1 mk]]; [constructor..|].
  apply Forall_cons in Hmk as [<- Hmk]. pose proof Hmk as Hmk'.
  apply Forall_cons in Hmk' as [<- _].
  destruct hk as [|h2 hk].
  - rewrite pchip_inner_last, pchip_interior_zero, pchip_edge_zero. by repeat constructor.
  - rewrite pchip_inner_step, pchip_interior_zero. constructor; [done|]. by apply IH.
Qed.

Lemma pchip_derivatives_zero (xp yp : list R) :
  Forall (eq 0) yp → Forall (eq 0) (pchip_derivatives xp yp).
Proof.
  intros Hy. unfold pchip_derivatives.
  pose proof (secants_zero _ (diffs xp) (diffs_zero _ Hy)) as Hmk.
  destruct (diffs xp) as [|h0 [|h1 hk]]; [constructor| |].
  - destruct (zip_with fdiv (diffs yp) [h0]) as [|m [|??]]; [constructor| |constructor].
    apply Forall_cons in Hmk as [<- _]. by repeat constructor.
  - destruct (zip_with fdiv (diffs yp) (h0 :: h1 :: hk)) as [|m0 [|m1 mk]];
      [constructor..|].
    pose proof (pchip_inner_zero (h0 :: h1 :: hk) _ Hmk) as Hin.
    apply Forall_cons in Hmk as [<- Hmk]. apply Forall_cons in Hmk as [<- _].
    rewrite pchip_edge_zero. by constructor.
Qed.

Lemma pchip_eval_zero (xp yp dp : list R) (x : R) :
  Forall (eq 0) yp → Forall (eq 0) dp → pchip_eval xp yp dp x = 0.
Proof.
  assert (Hnan : fzero ⊘ fzero = 0 :> R) by (cbn; unfold Rdiv; ring).
  revert yp dp. induction xp as [|x0 xp IH]; intros yp dp Hy Hd; [done|].
  destruct xp as [|x1 xp]; [by destruct yp, dp|].
  destruct yp as [|y0 [|y1 yp]]; [done..|]. destruct dp as [|d0 [|d1 dp]]; [done..|].
  apply Forall_cons in Hy as [<- Hy]. pose proof Hy as Hy'.
  apply Forall_cons in Hy' as [<- _].
  apply Forall_cons in Hd as [<- Hd]. pose proof Hd as Hd'.
  apply Forall_cons in Hd' as [<- _].
  destruct xp as [|x2 xp].
  - rewrite pchip_eval_last. apply hermite_zero.
  - rewrite pchip_eval_step, hermite_zero, IH by done. by destruct (fltb x x1).
Qed.

(** The interpolant through ordinates that are all zero is zero. *)
Lemma pchip_spec_zero (xp x : list R) :
  2 ≤ length xp → strictly_increasing xp = true →
  pchip_spec xp (replicate (length xp) 0) x = Ok (replicate (length x) 0).
Proof.
  intros Hge Hinc. rewrite pchip_spec_Ok; [|done|by rewrite length_replicate|done].
  f_equal. assert (Hz : Forall (eq 0) (replicate (length xp) 0)).
  { apply Forall_replicate. done. }
  induction x as [|x0 x IH]; [done|]. cbn [map length replicate].
  rewrite IH. f_equal. apply pchip_eval_zero; [done|]. by apply pchip_derivatives_zero.
Qed.

(** *** Ordinates equal to the abscissas *)

Lemma pchip_edge_one (h0 h1 : R) : 0 < h0 → 0 < h1 → pchip_edge h0 h1 1 1 = 1.
Proof.
  intros H0 H1. real_ops.
  replace ((((1 + 1) * h0 + h1) * 1 - h0 * 1) / (h0 + h1)) with 1 by (field; lra).
  unfold Rltb, Reqb. repeat (case_match; cbn [negb andb]; try lra); done.
Qed.

Lemma pchip_interior_one (h0 h1 : R) : 0 < h0 → 0 < h1 → pchip_interior h0 h1 1 1 = 1.
Proof.
  intros H0 H1. real_ops. unfold Rltb, Reqb.
  repeat (case_match; cbn [negb orb]; try lra). field. lra.
Qed.

Lemma diffs_positive (xp : list R) :
  strictly_increasing xp = true → Forall (λ h, 0 < h) (diffs xp).
Proof.
  induction xp as [|x0 xp IH]; [constructor|]. destruct xp as [|x1 xp]; [constructor|].
  intros [Hlt Hinc]%strictly_increasing_cons. rewrite diffs_cons.
  constructor; [cbn; lra|by apply IH].
Qed.

Lemma secants_one (hk : list R) :
  Forall (λ h, 0 < h) hk → Forall (eq 1) (zip_with fdiv hk hk).
Proof.
  induction 1 as [|h hk Hh _ IH]; [constructor|]. cbn [zip_with]. constructor; [|done].
  cbn. symmetry. field. lra.
Qed.

Lemma pchip_inner_one (hk mk : list R) :
  Forall (λ h, 0 < h) hk → Forall (eq 1) mk → Forall (eq 1) (pchip_inner hk mk).
Proof.
  revert mk. induction hk as [|h0 hk IH]; intros mk Hhk Hmk; [constructor|].
  destruct hk as [|h1 hk]; [by destruct mk|].
  destruct mk as [|m0 [|m1 mk]]; [constructor..|].
  apply Forall_cons in Hmk as [<- Hmk]. pose proof Hmk as Hmk'.
  apply Forall_cons in Hmk' as [<- _].
  apply Forall_cons in Hhk as [Hh0 Hhk]. pose proof Hhk as Hhk'.
  apply Forall_cons in Hhk' as [Hh1 _].
  destruct hk as [|h2 hk].
  - rewrite pchip_inner_last, pchip_interior_one, pchip_edge_one by done.
    by repeat constructor.
  - rewrite pchip_inner_step, pchip_interior_one by done. constructor; [done|]. by apply IH.
Qed.

Lemma pchip_derivatives_identity (xp : list R) :
  strictly_increasing xp = true → Forall (eq 1) (pchip_derivatives xp xp).
Proof.
  intros Hinc. unfold pchip_derivatives.
  pose proof (diffs_positive _ Hinc) as Hhk. pose proof (secants_one _ Hhk) as Hmk.
  destruct (diffs xp) as [|h0 [|h1 hk]]; [constructor| |].
  - cbn in Hmk |- *. apply Forall_cons in Hmk as [<- _]. by repeat constructor.
  - cbn [zip_with] in Hmk |- *.
    pose proof (pchip_inner_one _ _ Hhk Hmk) as Hin.
    apply Forall_cons in Hmk as [Hm0 Hmk]. apply Forall_cons in Hmk as [Hm1 _].
    apply Forall_cons in Hhk as [Hh0 Hhk]. apply Forall_cons in Hhk as [Hh1 _].
    rewrite <- Hm0, <- Hm1 in Hin |- *. rewrite pchip_edge_one by done. by constructor.
Qed.

Lemma pchip_eval_identity (xp dp : list R) (x : R) :
  strictly_increasing xp = true → Forall (eq 1) dp → length dp = length xp →
  2 ≤ length xp → pchip_eval xp xp dp x = x.
Proof.
  revert dp. induction xp as [|x0 xp IH]; intros dp Hinc Hd Hlen Hge; [cbn in Hge; lia|].
  destruct xp as [|x1 xp]; [cbn in Hge; lia|].
  destruct dp as [|d0 [|d1 dp]]; [done..|].
  apply strictly_increasing_cons in Hinc as [Hlt Hinc].
  apply Forall_cons in Hd as [<- Hd]. pose proof Hd as Hd'.
  apply Forall_cons in Hd' as [<- _].
  destruct xp as [|x2 xp].
  - rewrite pchip_eval_last. by apply hermite_identity.
  - rewrite pchip_eval_step, hermite_identity by done.
    rewrite IH; [by destruct (fltb x x1)|done|done|cbn in *; lia|cbn; lia].
Qed.

(** The interpolant of the abscissas over themselves is the identity. *)
Lemma pchip_spec_identity (xp x : list R) :
  2 ≤ length xp → strictly_increasing xp = true → pchip_spec xp xp x = Ok x.
Proof.
  intros Hge Hinc. rewrite pchip_spec_Ok by done. f_equal.
  rewrite <- (map_id x) at 2. apply map_ext. intros x0.
  apply pchip_eval_identity; [done|by apply pchip_derivatives_identity| |done].
  by apply length_pchip_derivatives.
Qed.
End pchip_real.

(** ** The FFD component with the pchip strategy, in exact arithmetic *)

Section FFDSpline_real.
#[local] Open Scope R_scope.
Variable PGL_installed : bool.
Variable NaturalCubicSpline : list R → list R → list R → result (list R).
Variable curvature : list (R * R) → result (list R).
Variable BezierCurve_update : list R * list R → result (list (R * R)).

Lemma zero_perturbation (P : list R) (scaler : R) :
  zip_with (λ p d, p ⊕ d ⊗ scaler) P (replicate (length P) 0) = P.
Proof.
  induction P as [|p P IH]; [done|]. cbn [length replicate zip_with].
  rewrite IH. f_equal. cbn. ring.
Qed.

(** C10: with the pchip strategy and control values that are all zero,
    the perturbed distribution is the baseline itself. *)
Theorem FFDSpline_zero_control_values (st : FFD_state R) (params : gmap string (list R)) :
  let c := self st in
  spline_type c = "pchip" →
  _init_called c = false →
  nC c = length (Cx c) →
  2 ≤ length (Cx c) →
  strictly_increasing (Cx c) = true →
  length (Pinit c) = length (s c) →
  params !! (_name c +:+ "_C") = Some (replicate (nC c) 0) →
  (∀ pts, is_Ok (curvature pts)) →
  ∃ st',
    FFDSpline_solve_nonlinear PGL_installed pchip_spec NaturalCubicSpline curvature
      BezierCurve_update params st = (Ok tt, st') ∧
    unknowns st' !! _name c = Some (Pinit c).
Proof.
  intros c Hty Hflag HnC Hge Hinc Hlen HC Hcurv.
  set (zeros := replicate (length (s c)) 0).
  assert (Hspl : pchip_spec (Cx c) (replicate (nC c) 0) (s c) = Ok zeros).
  { rewrite HnC. by apply pchip_spec_zero. }
  assert (HP : zip_with (λ p d, p ⊕ d ⊗ scaler c) (Pinit c) zeros = Pinit c).
  { unfold zeros. rewrite <- Hlen. apply zero_perturbation. }
  destruct (Hcurv (zip (s c) (Pinit c))) as [curv Hcv].
  destruct (solve_nonlinear_returns PGL_installed pchip_spec NaturalCubicSpline curvature
              BezierCurve_update st params (replicate (nC c) 0) zeros zeros curv
              pchipSpline pchipSpline pchipSpline (length (s c)))
    as (st' & Hrun & HP_out & _); try done.
  - fold c. by rewrite Hty.
  - fold c. cbn. by rewrite Hspl.
  - fold c. cbn. by rewrite Hspl.
  - unfold zeros. by rewrite length_replicate.
  - fold c. by rewrite HP.
  - exists st'. split; [done|]. fold c in HP_out. by rewrite HP in HP_out.
Qed.
End FFDSpline_real.

(** ** The resampler without PGL, in exact arithmetic *)

Section resampler_real.
#[local] Open Scope R_scope.
Variable PGL_redistribute_planform :
  gmap string (list R) → list (list R) → list R → string → result (gmap string (list R)).

(** C7 (as the code has it): without PGL the resampler runs every channel
    through pchip over the input [s].  When the input [s] is strictly
    increasing with at least two stations, and every channel has the
    length of [s], the call returns, every output channel has the length
    of [s_new], and the output [s] is [s_new]. *)
Theorem redistribute_without_PGL (self : PGLRedistributedPlanform R)
    (params unknowns : gmap string (list R)) (s_in : list R) :
  params !! "blade_ae:s" = Some s_in →
  2 ≤ length s_in →
  strictly_increasing s_in = true →
  Forall (λ k, ∃ v, params !! ("blade_ae:" +:+ k) = Some v ∧ length v = length s_in)
    input_channels →
  ∃ unknowns',
    PGLRedistributedPlanform_solve_nonlinear false pchip_spec PGL_redistribute_planform
      self params unknowns = (Ok tt, unknowns') ∧
    unknowns' !! blade_key (_suffix self) "s" = Some (s_new self) ∧
    Forall (λ k, ∃ v, unknowns' !! blade_key (_suffix self) k = Some v ∧
                      length v = length (s_new self)) output_channels.
Proof.
  intros Hs Hge Hinc Hall.
  set (g := λ v : list R, map (pchip_eval s_in v (pchip_derivatives s_in v)) (s_new self)).
  assert (Hg : ∀ v, length v = length s_in → pchip_spec s_in v (s_new self) = Ok (g v)).
  { intros v Hv. by apply pchip_spec_Ok. }
  assert (Hgs : g s_in = s_new self).
  { pose proof (pchip_spec_identity s_in (s_new self) Hge Hinc) as Hid.
    rewrite Hg in Hid by done. congruence. }
  assert (Hglen : ∀ v, length (g v) = length (s_new self)).
  { intros v. unfold g. by rewrite length_map. }
  unfold input_channels in Hall. repeat (apply Forall_cons in Hall as [[? [? ?]] Hall]).
  repeat match goal with
    | Hk : params !! (?a +:+ ?b) = _ |- _ =>
        let k := eval vm_compute in (a +:+ b) in change (a +:+ b) with k in Hk
    end.
  simplify_eq.
  unfold PGLRedistributedPlanform_solve_nonlinear, dict_get, mbind, M_bind, lift, modify.
  repeat match goal with
    | Hk : params !! ?k = Some _ |- context [params !! ?k] => rewrite Hk
    end.
  cbv beta iota.
  match goal with
  | |- context [resample_pchip _ _ _ ?m] => set (pf_in := m)
  end.
  assert (Hpf_s : pf_in !! "s" = Some s_in) by reflexivity.
  rewrite Hpf_s. unfold result_bind. cbv beta iota.
  rewrite (resample_pchip_Ok pchip_spec s_in (s_new self) g pf_in); last first.
  { intros k v Hk. apply Hg. unfold pf_in in Hk.
    repeat (apply lookup_insert_Some in Hk as [[_ <-]|[_ Hk]]; [done|]).
    by rewrite lookup_empty in Hk. }
  cbv beta iota.
  assert (Hpf : ∀ k v, pf_in !! k = Some v → (g <$> pf_in) !! k = Some (g v)).
  { intros k v Hk. by rewrite lookup_fmap, Hk. }
  rewrite (Hpf "chord" _ eq_refl), (Hpf "rthick" _ eq_refl).
  unfold np_mul. rewrite np_binop_same_length by (by rewrite !Hglen).
  eexists. split; [reflexivity|].
  match goal with
  | |- ?m !! _ = _ ∧ _ => set (out := m)
  end.
  assert (Hout : ∀ k v, k ≠ "athick" → pf_in !! k = Some v →
    out !! blade_key (_suffix self) k = Some (g v)).
  { intros k v Hne Hk. unfold out.
    rewrite lookup_insert_ne by (intros Heq; by apply blade_key_inj in Heq).
    apply copy_planform_lookup. by apply Hpf. }
  assert (Hlen : ∀ k v, k ≠ "athick" → pf_in !! k = Some v →
    ∃ w, out !! blade_key (_suffix self) k = Some w ∧ length w = length (s_new self)).
  { intros k v Hne Hk. exists (g v). split; [by apply Hout|apply Hglen]. }
  split.
  - rewrite (Hout "s" s_in) by done. by rewrite Hgs.
  - unfold output_channels, input_channels. cbn [app].
    repeat (apply Forall_cons; split; [by eapply Hlen; [|reflexivity]|]).
    apply Forall_cons; split; [|constructor].
    eexists. split; [apply lookup_insert_eq|].
    rewrite length_zip_with, !Hglen. lia.
Qed.
End resampler_real.

(** ** The planform reader *)

Section reader_facts.
Context {F : Type} `{Scalar F}.
Variable calculate_length : list (F * F * F) → result (list F).

(** What [read_blade_planform] returns, step by step. *)
Lemma read_blade_planform_Ok (rows : list (list F)) (pf : gmap string (value F)) :
  read_blade_planform calculate_length rows = Ok pf →
  ∃ c0 c1 c2 c6 c7 arc blade_length smax rmax athick,
    column rows 0 = Ok c0 ∧ column rows 1 = Ok c1 ∧ column rows 2 = Ok c2 ∧
    column rows 6 = Ok c6 ∧ column rows 7 = Ok c7 ∧
    calculate_length (zip3 c0 c1 c2) = Ok arc ∧
    last_row_get rows 2 = Ok blade_length ∧
    np_last arc = Ok smax ∧
    np_max c7 = Ok rmax ∧
    np_mul (np_div_scalar c7 rmax) (np_div_scalar c6 blade_length) = Ok athick ∧
    pf !! "blade_length" = Some (VFloat blade_length) ∧
    pf !! "smax" = Some (VFloat smax) ∧
    pf !! "s" = Some (VArray (np_div_scalar arc smax)) ∧
    pf !! "chord" = Some (VArray (np_div_scalar c6 blade_length)) ∧
    pf !! "rthick" = Some (VArray (np_div_scalar c7 rmax)) ∧
    pf !! "athick" = Some (VArray athick).
Proof.
  unfold read_blade_planform, mbind, result_bind.
  destruct (loadtxt rows) as [data|] eqn:Hload; [|done].
  assert (data = rows) as ->.
  { unfold loadtxt in Hload. destruct rows as [|? [|??]]; congruence. }
  repeat match goal with
    | |- context [column rows ?j] => destruct (column rows j) eqn:?; [|done]
    | |- context [calculate_length ?p] => destruct (calculate_length p) eqn:?; [|done]
    | |- context [last_row_get rows ?j] => destruct (last_row_get rows j) eqn:?; [|done]
    | |- context [np_last ?a] => destruct (np_last a) eqn:?; [|done]
    | |- context [np_max ?a] => destruct (np_max a) eqn:?; [|done]
    | |- context [np_mul ?a ?b] => destruct (np_mul a b) eqn:?; [|done]
    end.
  intros [= <-]. do 10 eexists. split_and!; done.
Qed.

(** C4 (as the code has it): [blade_length] is the z coordinate of the
    last row of the table ([data[-1, 2]], the span), [smax] is the total
    arc length of the axis, and [s] is the arc length divided by [smax]. *)
Theorem read_blade_planform_lengths (rows : list (list F)) (pf : gmap string (value F)) :
  read_blade_planform calculate_length rows = Ok pf →
  ∃ c0 c1 c2 arc blade_length smax,
    column rows 0 = Ok c0 ∧ column rows 1 = Ok c1 ∧ column rows 2 = Ok c2 ∧
    calculate_length (zip3 c0 c1 c2) = Ok arc ∧
    last_row_get rows 2 = Ok blade_length ∧
    np_last arc = Ok smax ∧
    pf !! "blade_length" = Some (VFloat blade_length) ∧
    pf !! "smax" = Some (VFloat smax) ∧
    pf !! "s" = Some (VArray (np_div_scalar arc smax)).
Proof.
  intros Hread. apply read_blade_planform_Ok in Hread
    as (c0 & c1 & c2 & c6 & c7 & arc & blade_length & smax & rmax & athick & Hread).
  destruct Hread as (?&?&?&?&?&?&?&?&?&?&?&?&?&?&?&?).
  exists c0, c1, c2, arc, blade_length, smax. split_and!; done.
Qed.
End reader_facts.

(** *** In exact arithmetic *)

Section reader_real.
#[local] Open Scope R_scope.

Lemma fmax_real (x y : R) : fmax x y = if Rltb x y then y else x.
Proof. unfold fmax. cbn [feqb fltb real]. by rewrite !Reqb_refl. Qed.

Lemma fmax_div (x y m : R) : 0 < m → fmax (x / m) (y / m) = fmax x y / m.
Proof.
  intros Hm. rewrite !fmax_real.
  assert (Hiff : x / m < y / m ↔ x < y).
  { unfold Rdiv. pose proof (Rinv_0_lt_compat m Hm). split; intros Hlt.
    - apply (Rmult_lt_reg_r (/ m)); done.
    - apply Rmult_lt_compat_r; done. }
  destruct (Rltb x y) eqn:Hxy.
  - apply Rltb_true in Hxy. by rewrite (proj2 (Rltb_true _ _)) by (by apply Hiff).
  - apply Rltb_false in Hxy. rewrite (proj2 (Rltb_false _ _)); [done|].
    apply Rnot_lt_le. intros Hlt%Hiff. lra.
Qed.

Lemma foldl_fmax_div (l : list R) (x m : R) :
  0 < m → foldl fmax (x / m) (map (λ y, y / m) l) = foldl fmax x l / m.
Proof.
  intros Hm. revert x. induction l as [|y l IH]; intros x; [done|].
  cbn [map foldl]. by rewrite fmax_div, IH.
Qed.

(** Dividing an array by its positive maximum makes the maximum 1. *)
Lemma np_max_normalized (a : list R) (m : R) :
  np_max a = Ok m → 0 < m → np_max (np_div_scalar a m) = Ok 1.
Proof.
  intros Hmax Hm. destruct a as [|x a]; [done|]. injection Hmax as Hmax.
  unfold np_div_scalar. cbn [map np_max fdiv real].
  rewrite foldl_fmax_div, Hmax by done. f_equal. field. lra.
Qed.

Lemma np_last_div (arc : list R) (smax : R) :
  np_last arc = Ok smax → 0 < smax → last (np_div_scalar arc smax) = Some 1.
Proof.
  unfold np_last, np_div_scalar. destruct (last arc) as [x|] eqn:Hlast; [|done].
  intros [= ->] Hpos. change (map (λ x, x ⊘ smax) arc) with ((λ x, x ⊘ smax) <$> arc).
  rewrite fmap_last, Hlast. cbn. f_equal. field. lra.
Qed.

(** C6 (as the code has it): when the [rthick] column of the table has a
    positive maximum and the axis has a positive total arc length, the
    planform read has [max(rthick) == 1], [s[0] = 0] and [s[-1] = 1];
    [calculate_length] is any function whose first entry is 0. *)
Theorem read_blade_planform_normalized
    (calculate_length : list (R * R * R) → result (list R)) (rows : list (list R))
    (pf : gmap string (value R)) (c7 : list R) (rmax smax : R) :
  (∀ points x arc, calculate_length points = Ok (x :: arc) → x = 0) →
  read_blade_planform calculate_length rows = Ok pf →
  column rows 7 = Ok c7 →
  np_max c7 = Ok rmax →
  0 < rmax →
  pf !! "smax" = Some (VFloat smax) →
  0 < smax →
  ∃ rthick s,
    pf !! "rthick" = Some (VArray rthick) ∧
    np_max rthick = Ok 1 ∧
    pf !! "s" = Some (VArray s) ∧
    head s = Some 0 ∧
    last s = Some 1.
Proof.
  intros Hhead Hread Hc7 Hmax Hrmax Hsmax Hpos.
  apply read_blade_planform_Ok in Hread
    as (c0 & c1 & c2 & c6 & c7' & arc & blade_length & smax' & rmax' & athick & Hread).
  destruct Hread as (_&_&_&_&Hc7'&Harc&_&Hlast&Hmax'&_&_&Hsmax'&Hs&_&Hrthick&_).
  assert (c7' = c7) as -> by congruence.
  assert (rmax' = rmax) as -> by congruence.
  assert (smax' = smax) as -> by congruence.
  exists (np_div_scalar c7 rmax), (np_div_scalar arc smax). split_and!.
  - done.
  - by apply np_max_normalized.
  - done.
  - destruct arc as [|a arc]; [done|]. apply Hhead in Harc as ->.
    cbn. f_equal. unfold Rdiv. ring.
  - by apply np_last_div.
Qed.
End reader_real.

(** ** The theorems on concrete inputs *)

(** C2 on the tapered planform, resampled without PGL. *)
Lemma athick_is_chord_times_rthick_witness :
  let unknowns' := (redistribute_run resampler taper_params ∅).2 in
  redistribute_run resampler taper_params ∅ = (Ok tt, unknowns') ∧
  ∃ chord rthick athick,
    unknowns' !! blade_key "_st" "chord" = Some chord ∧
    unknowns' !! blade_key "_st" "rthick" = Some rthick ∧
    unknowns' !! blade_key "_st" "athick" = Some athick ∧
    np_mul chord rthick = Ok athick ∧
    (length chord = length rthick → athick = zip_with fmul chord rthick).
Proof.
  intros unknowns'.
  assert (Hrun : redistribute_run resampler taper_params ∅ = (Ok tt, unknowns')).
  { reflexivity. }
  split; [exact Hrun|].
  exact (proj1 (athick_is_chord_times_rthick false pchip_spec PGL_redistribute_planform_absent)
           resampler taper_params ∅ unknowns' Hrun).
Defined.

(** C4: a prebent axis from (0, 0, 0) to (3, 0, 4): the span is 4 and the
    arc length is 5. *)
Lemma prebent_blade_length_is_not_arc_length :
  read_blade_planform calculate_length_spec prebent_table = Ok prebent_planform ∧
  prebent_planform !! "blade_length" = Some (VFloat 4%float) ∧
  prebent_planform !! "smax" = Some (VFloat 5%float) ∧
  feqb 4%float 5%float = false.
Proof. split_and!; reflexivity. Qed.

Lemma read_blade_planform_lengths_witness :
  read_blade_planform calculate_length_spec prebent_table = Ok prebent_planform ∧
  ∃ c0 c1 c2 arc blade_length smax,
    column prebent_table 0 = Ok c0 ∧ column prebent_table 1 = Ok c1 ∧
    column prebent_table 2 = Ok c2 ∧
    calculate_length_spec (zip3 c0 c1 c2) = Ok arc ∧
    last_row_get prebent_table 2 = Ok blade_length ∧
    np_last arc = Ok smax ∧
    prebent_planform !! "blade_length" = Some (VFloat blade_length) ∧
    prebent_planform !! "smax" = Some (VFloat smax) ∧
    prebent_planform !! "s" = Some (VArray (np_div_scalar arc smax)).
Proof.
  assert (Hread : read_blade_planform calculate_length_spec prebent_table
                  = Ok prebent_planform).
  { reflexivity. }
  split; [exact Hread|].
  exact (read_blade_planform_lengths calculate_length_spec prebent_table prebent_planform Hread).
Defined.

(** C6: a table of zeros is read without an exception, and neither the
    maximum of [rthick] nor the ends of [s] are what the claim says: they
    are NaN. *)
Lemma zero_table_is_not_normalized :
  read_blade_planform calculate_length_spec zero_table = Ok zero_planform ∧
  zero_planform !! "rthick" = Some (VArray [PrimFloat.nan; PrimFloat.nan]) ∧
  np_max [PrimFloat.nan; PrimFloat.nan] = Ok PrimFloat.nan ∧
  feqb PrimFloat.nan 1%float = false ∧
  zero_planform !! "s" = Some (VArray [PrimFloat.nan; PrimFloat.nan]) ∧
  feqb PrimFloat.nan 0%float = false.
Proof. split_and!; reflexivity. Qed.

(** C7: a planform whose first station is repeated: pchip refuses the
    abscissas, the call raises and nothing is written. *)
Lemma redistribute_repeated_station :
  (redistribute_run resampler repeated_station_params ∅).1 = Raise NumericalError ∧
  (redistribute_run resampler repeated_station_params ∅).2 !! blade_key "_st" "s" = None.
Proof. split; reflexivity. Qed.

(** Sortedness of concrete abscissas in exact arithmetic. *)
Ltac increasing_R :=
  cbn [strictly_increasing fltb real andb]; unfold Rltb;
  repeat (destruct (Rlt_dec _ _); [cbn [andb]|lra]); reflexivity.

(** C5 on three control points. *)
Lemma pchipSpline_interpolates_witness :
  ∃ out,
    (Spline_call pchip_spec NaturalCubicSpline_unreached BezierCurve_update_absent
       pchipSpline chord_Cx_R chord_Cx_R chord_C_R).1 = Ok out ∧
    Forall2 (λ o c, Rabs (o - c) <= / 10 ^ 10)%R out chord_C_R ∧
    out = chord_C_R.
Proof.
  apply pchipSpline_interpolates.
  - cbn. lia.
  - reflexivity.
  - unfold chord_Cx_R. increasing_R.
Defined.

(** C10 on a chord spline with three control points. *)
Lemma FFDSpline_zero_control_values_witness :
  ∃ st',
    FFDSpline_solve_nonlinear false pchip_spec NaturalCubicSpline_unreached curvature_spec
      BezierCurve_update_absent zero_params_R chord_state_R = (Ok tt, st') ∧
    unknowns st' !! "blade_ae:chord" = Some [1; 3 / 4; 1 / 2; 1 / 10]%R.
Proof.
  apply (FFDSpline_zero_control_values false NaturalCubicSpline_unreached curvature_spec
           BezierCurve_update_absent chord_state_R zero_params_R).
  - reflexivity.
  - reflexivity.
  - reflexivity.
  - cbn. lia.
  - cbn [chord_state_R self Cx set_spline_option with_spline FFDSpline_init].
    unfold chord_Cx_R. increasing_R.
  - reflexivity.
  - reflexivity.
  - intros pts. eexists. reflexivity.
Defined.

(** C7 on the tapered planform. *)
Lemma redistribute_without_PGL_witness :
  ∃ unknowns',
    PGLRedistributedPlanform_solve_nonlinear false pchip_spec PGL_redistribute_planform_absent
      resampler_R taper_params_R ∅ = (Ok tt, unknowns') ∧
    unknowns' !! blade_key "_st" "s" = Some [0; 1 / 4; 1 / 2; 1]%R ∧
    Forall (λ k, ∃ v, unknowns' !! blade_key "_st" k = Some v ∧ length v = 4)
      output_channels.
Proof.
  apply (redistribute_without_PGL PGL_redistribute_planform_absent resampler_R taper_params_R
           ∅ [0; 1 / 2; 1]%R).
  - reflexivity.
  - cbn. lia.
  - increasing_R.
  - unfold input_channels. repeat (apply Forall_cons; split; [eexists; split; reflexivity|]).
    constructor.
Defined.

(** C6 on the prebent table. *)
Lemma read_blade_planform_normalized_witness :
  read_blade_planform calculate_length_spec prebent_table_R = Ok prebent_planform_R ∧
  ∃ rthick s,
    prebent_planform_R !! "rthick" = Some (VArray rthick) ∧
    np_max rthick = Ok 1%R ∧
    prebent_planform_R !! "s" = Some (VArray s) ∧
    head s = Some 0%R ∧
    last s = Some 1%R.
Proof.
  assert (Hread : read_blade_planform calculate_length_spec prebent_table_R
                  = Ok prebent_planform_R) by reflexivity.
  split; [exact Hread|].
  eapply (read_blade_planform_normalized calculate_length_spec prebent_table_R
            prebent_planform_R [1; 1 / 2]%R 1%R).
  - intros [|p ps] x arc [= <- _]. reflexivity.
  - exact Hread.
  - reflexivity.
  - cbn [np_max foldl]. rewrite fmax_real. unfold Rltb.
    destruct (Rlt_dec 1 (1 / 2)); [lra|reflexivity].
  - lra.
  - reflexivity.
  - cbn [fadd fsub fzero real]. unfold dist3, fsquare. cbn [fadd fsub fmul fsqrt real].
    apply Rplus_le_lt_0_compat; [lra|]. apply sqrt_lt_R0. lra.
Defined.


(** * Further properties of the module *)

(** ** FFDSpline: strategies and state *)

Section FFDSpline_more.
Context {F : Type} `{Scalar F}.
Variable PGL_installed : bool.
Variable pchip NaturalCubicSpline : list F → list F → list F → result (list F).
Variable curvature : list (F * F) → result (list F).
Variable BezierCurve_update : list F * list F → result (list (F * F)).

#[local] Abbreviation solve_nonlinear :=
  (FFDSpline_solve_nonlinear PGL_installed pchip NaturalCubicSpline curvature
     BezierCurve_update).
#[local] Abbreviation initialize :=
  (Spline_initialize PGL_installed pchip NaturalCubicSpline BezierCurve_update).
#[local] Abbreviation evaluate := (Spline_call pchip NaturalCubicSpline BezierCurve_update).

(** One statement of [solve_nonlinear] at a time. *)
Ltac ffd_steps params c :=
  repeat first
    [ progress cbn [self unknowns calls on_self on_unknowns record_call with_spline
        with_P with_init_called _name _init_called spline_type s Cx Pinit scaler spline
        nC _size _P negb fst snd]
    | match goal with
      | |- context [params !! ?k] => destruct (params !! k) eqn:?
      | |- context [negb (_init_called c)] => destruct (_init_called c) eqn:?
      | |- context [spline_dict !! ?k] => destruct (spline_dict (F:=F) !! k) eqn:?
      | |- context [initialize ?sp ?x ?xp ?yp] =>
          destruct (initialize sp x xp yp) as [[?|?] ?] eqn:?
      | |- context [evaluate ?sp ?x ?xp ?yp] =>
          destruct (evaluate sp x xp yp) as [[?|?] ?] eqn:?
      | |- context [np_add ?a ?b] => destruct (np_add a b) eqn:?
      | |- context [np_columns ?a ?b] => destruct (np_columns a b) eqn:?
      | |- context [curvature ?a] => destruct (curvature a) eqn:?
      end ].

Lemma spline_dict_class (ty : string) (sp : Spline F) :
  spline_dict !! ty = Some sp → Spline_class sp = ty.
Proof.
  unfold spline_dict. intros Hsp.
  apply lookup_insert_Some in Hsp as [[<- <-]|[_ Hsp]]; [done|].
  by apply lookup_singleton_Some in Hsp as [<- <-].
Qed.

Lemma evaluate_class (sp : Spline F) (x Cx C : list F) :
  Spline_class (evaluate sp x Cx C).2 = Spline_class sp.
Proof.
  destruct sp as [|[B|]]; [done| |done]. cbn.
  by destruct (BezierCurve_update (Cx, C)).
Qed.

Lemma initialize_class (sp : Spline F) (x xp yp : list F) :
  Spline_class (initialize sp x xp yp).2 = Spline_class sp.
Proof.
  destruct sp as [|B]; [done|]. unfold Spline_initialize.
  destruct BezierCurve_new; [|done]. by rewrite evaluate_class.
Qed.

(** X1: an evaluation changes nothing of the component but its strategy
    object and [_P]: the name, the baseline, the control abscissas, the
    scaler, the sizes, the option and the flag are as they were. *)
Theorem FFDSpline_solve_nonlinear_keeps_configuration (params : gmap string (list F))
    (st : FFD_state F) :
  let c := self st in
  let c' := self (solve_nonlinear params st).2 in
  _name c' = _name c ∧ s c' = s c ∧ Pinit c' = Pinit c ∧ Cx c' = Cx c ∧
  scaler c' = scaler c ∧ nC c' = nC c ∧ _size c' = _size c ∧
  spline_type c' = spline_type c ∧ _init_called c' = _init_called c.
Proof.
  destruct st as [c u ev].
  unfold FFDSpline_solve_nonlinear, FFDSpline_set_spline, on_spline, dict_get,
    mbind, M_bind, mret, M_ret, lift, gets, modify.
  ffd_steps params c; done.
Qed.

(** X2: the option [spline_type] takes effect at the next evaluation: after
    an evaluation that returns (with the flag false, as it always is), the
    strategy object is of the class the option names. *)
Theorem FFDSpline_strategy_follows_option (params : gmap string (list F))
    (st : FFD_state F) :
  _init_called (self st) = false →
  (solve_nonlinear params st).1 = Ok tt →
  Spline_class (spline (self (solve_nonlinear params st).2)) = spline_type (self st).
Proof.
  destruct st as [c u ev]. cbn [self]. intros Hflag.
  unfold FFDSpline_solve_nonlinear, FFDSpline_set_spline, on_spline, dict_get,
    mbind, M_bind, mret, M_ret, lift, gets, modify.
  cbn [self]. rewrite Hflag.
  ffd_steps params c; try done.
  intros _.
  repeat match goal with
    | Hr : initialize ?sp ?x ?xp ?yp = (_, ?sp') |- _ =>
        pose proof (initialize_class sp x xp yp) as Hic; rewrite Hr in Hic;
        cbn [snd] in Hic; clear Hr
    | Hr : evaluate ?sp ?x ?xp ?yp = (_, ?sp') |- _ =>
        pose proof (evaluate_class sp x xp yp) as Hec; rewrite Hr in Hec;
        cbn [snd] in Hec; clear Hr
    end.
  rewrite Hec, Hic. by apply spline_dict_class.
Qed.

(** X3: the default strategy needs PGL.  A component as [__init__] makes
    it, evaluated when PGL could not be imported, raises [NameError] for
    [BezierCurve] whatever the control values, and writes nothing. *)
Theorem FFDSpline_default_strategy_needs_PGL (name : string) (s P Cx C : list F)
    (scaler : F) (params u : gmap string (list F)) (ev : list (call F)) :
  params !! (name +:+ "_C") = Some C →
  let st := {| self := FFDSpline_init name s P Cx scaler; unknowns := u; calls := ev |} in
  let run :=
    FFDSpline_solve_nonlinear false pchip NaturalCubicSpline curvature BezierCurve_update
      params st in
  run.1 = Raise (NameError "BezierCurve") ∧ unknowns run.2 = u.
Proof.
  intros HC st run. unfold run, st.
  unfold FFDSpline_solve_nonlinear, FFDSpline_set_spline, on_spline, dict_get,
    mbind, M_bind, mret, M_ret, lift, gets, modify.
  cbn [self FFDSpline_init _name _init_called spline_type negb]. rewrite HC.
  done.
Qed.

Ltac ffd_simpl :=
  cbn [self unknowns calls on_self on_unknowns record_call with_spline with_P
       with_init_called _name _init_called spline_type s Cx Pinit scaler spline _P
       negb fst snd Spline_initialize Spline_call].

(** X4: with the pchip strategy the flag makes no difference to what an
    evaluation gives: [initialize] of that strategy is an evaluation whose
    result is dropped. *)
Theorem FFDSpline_pchip_flag_irrelevant (params : gmap string (list F)) (st : FFD_state F)
    (b : bool) :
  spline (self st) = pchipSpline →
  spline_type (self st) = "pchip" →
  let run := solve_nonlinear params st in
  let run_b := solve_nonlinear params (on_self (with_init_called b) st) in
  run_b.1 = run.1 ∧
  unknowns run_b.2 = unknowns run.2 ∧
  spline (self run_b.2) = spline (self run.2) ∧
  _P (self run_b.2) = _P (self run.2).
Proof.
  destruct st as [c u ev]. cbn [self]. intros Hsp Hty.
  unfold FFDSpline_solve_nonlinear, FFDSpline_set_spline, on_spline, dict_get,
    mbind, M_bind, mret, M_ret, lift, gets, modify.
  assert (Hdict : spline_dict (F:=F) !! "pchip" = Some pchipSpline) by done.
  ffd_simpl.
  destruct (params !! (_name c +:+ "_C")) as [C|]; [|done].
  destruct (pchip (Cx c) C (s c)) as [δ|e] eqn:Hp;
    destruct b, (_init_called c);
    repeat (progress (ffd_simpl; rewrite ?Hty, ?Hdict, ?Hsp, ?Hp)); try done.
  all: destruct (np_add (Pinit c) (np_scale δ (scaler c))) as [P|]; [|by ffd_simpl].
  all: destruct (np_columns (s c) P) as [pts|]; [|by ffd_simpl].
  all: by destruct (curvature pts); ffd_simpl.
Qed.
End FFDSpline_more.

(** ** The planform reader: shape and normalization *)

Section reader_more.
Context {F : Type} `{Scalar F}.
Variable calculate_length : list (F * F * F) → result (list F).

Lemma column_cons (row : list F) (data : list (list F)) (j : nat) (c : list F) :
  column (row :: data) j = Ok c →
  ∃ x c', row !! j = Some x ∧ column data j = Ok c' ∧ c = x :: c'.
Proof.
  cbn [column]. unfold mbind, result_bind, row_get.
  destruct (row !! j) as [x|]; [|done]. destruct (column data j) as [c'|]; [|done].
  intros [= <-]. by exists x, c'.
Qed.

Lemma column_length (data : list (list F)) (j : nat) (c : list F) :
  column data j = Ok c → length c = length data.
Proof.
  revert c. induction data as [|row data IH]; intros c; [by intros [= <-]|].
  intros (x & c' & _ & Hc' & ->)%column_cons. cbn. f_equal. by apply IH.
Qed.

Lemma column_wide (data : list (list F)) (j : nat) (c : list F) :
  column data j = Ok c → Forall (λ row, j < length row) data.
Proof.
  revert c. induction data as [|row data IH]; intros c; [constructor|].
  intros (x & c' & Hx & Hc' & ->)%column_cons. constructor; [|by eapply IH].
  by eapply lookup_lt_Some.
Qed.

Lemma column_last (data : list (list F)) (j : nat) (c : list F) (b : F) :
  column data j = Ok c → last_row_get data j = Ok b → last c = Some b.
Proof.
  revert c. induction data as [|row data IH]; intros c; [done|].
  intros (x & c' & Hx & Hc' & ->)%column_cons. unfold last_row_get.
  destruct data as [|row' data].
  - cbn in Hc' |- *. injection Hc' as <-. unfold row_get. rewrite Hx. by intros [= <-].
  - change (last (row :: row' :: data)) with (last (row' :: data)). intros Hlast.
    specialize (IH c' Hc' Hlast). destruct c' as [|y c']; [done|]. exact IH.
Qed.

(** Every entry of the dictionary that [read_blade_planform] returns. *)
Lemma read_blade_planform_channels (rows : list (list F)) (pf : gmap string (value F)) :
  read_blade_planform calculate_length rows = Ok pf →
  ∃ c0 c1 c2 c3 c4 c5 c6 c7 c8 arc blade_length smax rmax athick,
    2 ≤ length rows ∧
    column rows 0 = Ok c0 ∧ column rows 1 = Ok c1 ∧ column rows 2 = Ok c2 ∧
    column rows 3 = Ok c3 ∧ column rows 4 = Ok c4 ∧ column rows 5 = Ok c5 ∧
    column rows 6 = Ok c6 ∧ column rows 7 = Ok c7 ∧ column rows 8 = Ok c8 ∧
    calculate_length (zip3 c0 c1 c2) = Ok arc ∧
    last_row_get rows 2 = Ok blade_length ∧
    np_last arc = Ok smax ∧
    np_max c7 = Ok rmax ∧
    np_mul (np_div_scalar c7 rmax) (np_div_scalar c6 blade_length) = Ok athick ∧
    pf !! "s" = Some (VArray (np_div_scalar arc smax)) ∧
    pf !! "x" = Some (VArray (np_div_scalar c0 blade_length)) ∧
    pf !! "y" = Some (VArray (np_div_scalar c1 blade_length)) ∧
    pf !! "z" = Some (VArray (np_div_scalar c2 blade_length)) ∧
    pf !! "rot_x" = Some (VArray c3) ∧
    pf !! "rot_y" = Some (VArray c4) ∧
    pf !! "rot_z" = Some (VArray c5) ∧
    pf !! "chord" = Some (VArray (np_div_scalar c6 blade_length)) ∧
    pf !! "rthick" = Some (VArray (np_div_scalar c7 rmax)) ∧
    pf !! "athick" = Some (VArray athick) ∧
    pf !! "p_le" = Some (VArray c8) ∧
    pf !! "blade_length" = Some (VFloat blade_length) ∧
    pf !! "smax" = Some (VFloat smax).
Proof.
  unfold read_blade_planform, mbind, result_bind.
  destruct (loadtxt rows) as [data|] eqn:Hload; [|done].
  assert (data = rows ∧ 2 ≤ length rows) as [-> Hrows].
  { unfold loadtxt in Hload. destruct rows as [|? [|??]]; simplify_eq; cbn.
    split; [done|lia]. }
  repeat match goal with
    | |- context [column rows ?j] => destruct (column rows j) eqn:?; [|done]
    | |- context [calculate_length ?p] => destruct (calculate_length p) eqn:?; [|done]
    | |- context [last_row_get rows ?j] => destruct (last_row_get rows j) eqn:?; [|done]
    | |- context [np_last ?a] => destruct (np_last a) eqn:?; [|done]
    | |- context [np_max ?a] => destruct (np_max a) eqn:?; [|done]
    | |- context [np_mul ?a ?b] => destruct (np_mul a b) eqn:?; [|done]
    end.
  intros [= <-]. do 14 eexists. split_and!; done.
Qed.

(** X5: a table is read only if it has at least two rows and every row has
    at least nine entries. *)
Theorem read_blade_planform_needs_table (rows : list (list F))
    (pf : gmap string (value F)) :
  read_blade_planform calculate_length rows = Ok pf →
  2 ≤ length rows ∧ Forall (λ row, 9 ≤ length row) rows.
Proof.
  intros Hread. apply read_blade_planform_channels in Hread
    as (c0&c1&c2&c3&c4&c5&c6&c7&c8&arc&bl&smax&rmax&athick&Hrows&Hread).
  split; [done|]. destruct Hread as (_&_&_&_&_&_&_&_&Hc8&_).
  apply column_wide in Hc8. eapply Forall_impl; [exact Hc8|]. cbn. lia.
Qed.

(** X6: every channel of the planform read has one entry per row of the
    table, when [calculate_length] gives one entry per point. *)
Theorem read_blade_planform_channel_lengths (rows : list (list F))
    (pf : gmap string (value F)) :
  (∀ points arc, calculate_length points = Ok arc → length arc = length points) →
  read_blade_planform calculate_length rows = Ok pf →
  Forall (λ k, ∃ a, pf !! k = Some (VArray a) ∧ length a = length rows) output_channels.
Proof.
  intros Hlen Hread. apply read_blade_planform_channels in Hread
    as (c0&c1&c2&c3&c4&c5&c6&c7&c8&arc&bl&smax&rmax&athick&Hrows&Hread).
  destruct Hread as (H0&H1&H2&H3&H4&H5&H6&H7&H8&Harc&_&_&_&Hmul&Hread).
  destruct Hread as (?&?&?&?&?&?&?&?&?&?&?&_).
  apply column_length in H0, H1, H2, H3, H4, H5, H6, H7, H8.
  apply Hlen in Harc. unfold zip3 in Harc. rewrite !length_zip in Harc.
  unfold np_mul in Hmul. rewrite np_binop_same_length in Hmul
    by (unfold np_div_scalar; rewrite !length_map; lia).
  injection Hmul as <-.
  unfold output_channels, input_channels. cbn [app].
  repeat (apply Forall_cons; split;
    [eexists; split; [eassumption|];
     unfold np_div_scalar; rewrite ?length_zip_with, ?length_map; lia|]).
  constructor.
Qed.

(** X7: in every planform read, [athick] is the product of [rthick] and
    [chord], entry by entry. *)
Theorem read_blade_planform_athick (rows : list (list F)) (pf : gmap string (value F)) :
  read_blade_planform calculate_length rows = Ok pf →
  ∃ chord rthick,
    pf !! "chord" = Some (VArray chord) ∧
    pf !! "rthick" = Some (VArray rthick) ∧
    pf !! "athick" = Some (VArray (zip_with fmul rthick chord)).
Proof.
  intros Hread. apply read_blade_planform_channels in Hread
    as (c0&c1&c2&c3&c4&c5&c6&c7&c8&arc&bl&smax&rmax&athick&Hrows&Hread).
  destruct Hread as (_&_&_&_&_&_&H6&H7&_&_&_&_&_&Hmul&Hread).
  destruct Hread as (_&_&_&_&_&_&_&Hchord&Hrthick&Hathick&_).
  apply column_length in H6, H7.
  unfold np_mul in Hmul. rewrite np_binop_same_length in Hmul
    by (unfold np_div_scalar; rewrite !length_map; lia).
  injection Hmul as <-. eauto.
Qed.
End reader_more.

(** ** The resampler: inputs and outputs *)

Section resampler_more.
Context {F : Type} `{Scalar F}.
Variable PGL_installed : bool.
Variable pchip : list F → list F → list F → result (list F).
Variable PGL_redistribute_planform :
  gmap string (list F) → list (list F) → list F → string → result (gmap string (list F)).

#[local] Abbreviation solve_nonlinear :=
  (PGLRedistributedPlanform_solve_nonlinear PGL_installed pchip PGL_redistribute_planform).

(** The keys that the loop of lines 410-411 leaves in [unknowns]. *)
Lemma copy_planform_is_Some (suffix : string) (pf unknowns : gmap string (list F))
    (k' : string) :
  is_Some (map_fold (λ k v u, <[blade_key suffix k := v]> u) unknowns pf !! k') ↔
  is_Some (unknowns !! k') ∨ ∃ k, is_Some (pf !! k) ∧ k' = blade_key suffix k.
Proof.
  apply (map_fold_weak_ind (λ r m,
    is_Some (r !! k') ↔
    is_Some (unknowns !! k') ∨ ∃ k, is_Some (m !! k) ∧ k' = blade_key suffix k)).
  - split; [by left|]. intros [?|(k & Hk & _)]; [done|].
    rewrite lookup_empty in Hk. by destruct Hk.
  - intros i x m r Hi IH. rewrite lookup_insert_is_Some', IH. split.
    + intros [Heq|[?|(k & Hk & ->)]].
      * right. exists i. by rewrite lookup_insert_eq.
      * by left.
      * right. exists k. split; [|done]. rewrite lookup_insert_is_Some'. by right.
    + intros [?|(k & Hk & ->)]; [by right; left|].
      apply lookup_insert_is_Some' in Hk as [<-|Hk]; [by left|]. right. right. by exists k.
Qed.

(** The fallback loop returns a dictionary with the keys of its input. *)
Lemma resample_pchip_is_Some (s_in s_out : list F) (pf_in pf : gmap string (list F))
    (k : string) :
  resample_pchip pchip s_in s_out pf_in = Ok pf →
  is_Some (pf !! k) ↔ is_Some (pf_in !! k).
Proof.
  unfold resample_pchip. revert pf.
  apply (map_fold_weak_ind (λ r m, ∀ pf, r = Ok pf → is_Some (pf !! k) ↔ is_Some (m !! k))).
  - intros pf [= <-]. by rewrite !lookup_empty.
  - intros i x m r Hi IH pf. destruct r as [pf0|]; [|done]. cbn.
    destruct (pchip s_in x s_out) as [v|]; [|done]. cbn. intros [= <-].
    rewrite !lookup_insert_is_Some'. by rewrite (IH pf0 eq_refl).
Qed.

Ltac missing_input k :=
  by exists k; split_and!; [rewrite list_elem_of_In; simpl; auto 20|eassumption|reflexivity].

(** X8: both paths read all ten inputs first: when one of them is missing
    the call raises [KeyError] for a missing input and writes nothing. *)
Theorem redistribute_needs_every_input (self : PGLRedistributedPlanform F)
    (params unknowns : gmap string (list F)) :
  Exists (λ k, params !! ("blade_ae:" +:+ k) = None) input_channels →
  ∃ k, k ∈ input_channels ∧ params !! ("blade_ae:" +:+ k) = None ∧
       solve_nonlinear self params unknowns = (Raise (KeyError ("blade_ae:" +:+ k)), unknowns).
Proof.
  intros Hmiss.
  unfold PGLRedistributedPlanform_solve_nonlinear, dict_get, mbind, M_bind, lift, modify.
  unfold input_channels in *.
  repeat match goal with
    | |- context [params !! ?key] =>
        lazymatch key with
        | String.app _ _ => fail
        | _ => idtac
        end;
        destruct (params !! key) eqn:?;
        [|first [missing_input "s" | missing_input "x" | missing_input "y"
                | missing_input "z" | missing_input "rot_x" | missing_input "rot_y"
                | missing_input "rot_z" | missing_input "chord" | missing_input "rthick"
                | missing_input "p_le"]]
    end.
  exfalso.
  repeat (apply Exists_cons in Hmiss as [Hmiss|Hmiss];
    [cbv beta in Hmiss;
     match type of Hmiss with
     | params !! (?a +:+ ?b) = None =>
         let key := eval vm_compute in (a +:+ b) in change (a +:+ b) with key in Hmiss
     end; congruence|]).
  by apply Exists_nil in Hmiss.
Qed.

(** X9: without PGL a call that returns writes the eleven outputs of the
    component and no other key. *)
Theorem redistribute_fallback_writes_outputs (self : PGLRedistributedPlanform F)
    (params unknowns unknowns' : gmap string (list F)) (k' : string) :
  PGLRedistributedPlanform_solve_nonlinear false pchip PGL_redistribute_planform
    self params unknowns = (Ok tt, unknowns') →
  is_Some (unknowns' !! k') ↔
  is_Some (unknowns !! k') ∨ k' ∈ blade_key (_suffix self) <$> output_channels.
Proof.
  unfold PGLRedistributedPlanform_solve_nonlinear, dict_get, mbind, M_bind, lift, modify.
  repeat match goal with
    | |- context [params !! ?key] => destruct (params !! key) eqn:?; [|done]
    end.
  cbv beta iota.
  match goal with
  | |- context [resample_pchip _ _ _ ?m] => set (pf_in := m)
  end.
  assert (Hpf_s : pf_in !! "s" = Some l) by reflexivity.
  rewrite Hpf_s. unfold result_bind. cbv beta iota.
  destruct (resample_pchip pchip l (s_new self) pf_in) as [pf|] eqn:Hres; [|done].
  destruct (pf !! "chord") as [chord|]; [|done].
  destruct (pf !! "rthick") as [rthick|]; [|done].
  destruct (np_mul chord rthick) as [athick|]; [|done].
  intros [= <-].
  rewrite lookup_insert_is_Some', copy_planform_is_Some.
  assert (Hkeys : ∀ k, is_Some (pf !! k) ↔ k ∈ input_channels).
  { intros k. rewrite (resample_pchip_is_Some _ _ _ _ _ Hres). unfold pf_in, input_channels.
    rewrite !lookup_insert_is_Some', lookup_empty, is_Some_alt, list_elem_of_In.
    cbn [In]. tauto. }
  unfold output_channels. rewrite fmap_app, elem_of_app, list_elem_of_fmap.
  cbn [fmap list_fmap]. rewrite list_elem_of_singleton. split.
  - intros [<-|[?|(k & Hk & ->)]]; [by right; right|by left|].
    right. left. exists k. split; [done|]. by apply Hkeys.
  - intros [?|[(k & -> & Hk)| ->]]; [by right; left| |by left].
    right. right. exists k. split; [|done]. by apply Hkeys.
Qed.
End resampler_more.

(** ** The planform writer *)

Section writer_facts.
Context {F : Type} `{Scalar F}.
Variable calculate_length : list (F * F * F) → result (list F).

Lemma fill_columns_ext (pf1 pf2 : gmap string (value F)) (n : nat) (names : list string) :
  Forall (λ k, pf1 !! k = pf2 !! k) names →
  fill_columns pf1 n names = fill_columns pf2 n names.
Proof.
  induction 1 as [|k names Hk _ IH]; [done|].
  cbn [fill_columns]. unfold dict_get. by rewrite Hk, IH.
Qed.

Lemma fill_columns_arrays (pf : gmap string (value F)) (n : nat) (names : list string)
    (cols : list (list F)) :
  Forall2 (λ k col, pf !! k = Some (VArray col) ∧ length col = n) names cols →
  fill_columns pf n names = Ok cols.
Proof.
  induction 1 as [|k col names cols [Hk Hlen] _ IH]; [done|].
  cbn [fill_columns]. unfold dict_get. rewrite Hk. cbn.
  rewrite decide_True by done. cbn. by rewrite IH.
Qed.

Lemma fill_columns_shape (pf : gmap string (value F)) (n : nat) (names : list string)
    (cols : list (list F)) :
  fill_columns pf n names = Ok cols →
  length cols = length names ∧ Forall (λ col, length col = n) cols.
Proof.
  revert cols. induction names as [|k names IH]; intros cols; [by intros [= <-]|].
  cbn [fill_columns]. unfold mbind, result_bind.
  destruct (dict_get pf k) as [v|]; [|done].
  destruct (column_assign n v) as [col|] eqn:Hcol; [|done].
  destruct (fill_columns pf n names) as [cols'|]; [|done]. intros [= <-].
  destruct (IH cols' eq_refl) as [Hlen Hall]. split; [cbn; by f_equal|].
  constructor; [|done]. unfold column_assign in Hcol.
  destruct v as [x|a]; [injection Hcol as <-; by rewrite length_replicate|].
  case_decide; [congruence|]. destruct a as [|x [|??]]; simplify_eq.
  by rewrite length_replicate.
Qed.

Lemma column_rows_of_columns_at (cols : list (list F)) (j : nat) (col : list F)
    (idx : list nat) :
  cols !! j = Some col →
  column (map (λ i, map (λ c, default fzero (c !! i)) cols) idx) j
  = Ok (map (λ i, default fzero (col !! i)) idx).
Proof.
  intros Hj. induction idx as [|i idx IH]; [done|].
  cbn [map column]. unfold row_get.
  change (map (λ c, default fzero (c !! i)) cols) with ((λ c, default fzero (c !! i)) <$> cols).
  rewrite list_lookup_fmap, Hj. cbn. by rewrite IH.
Qed.

Lemma lookups_of_seq (col : list F) :
  map (λ i, default fzero (col !! i)) (seq 0 (length col)) = col.
Proof.
  apply list_eq. intros i.
  change (map (λ i, default fzero (col !! i)) (seq 0 (length col)))
    with ((λ i, default fzero (col !! i)) <$> seq 0 (length col)).
  rewrite list_lookup_fmap. destruct (decide (i < length col)) as [Hlt|Hge].
  - rewrite lookup_seq_lt by done. cbn.
    destruct (lookup_lt_is_Some_2 col i Hlt) as [x Hx]. by rewrite Hx.
  - rewrite lookup_seq_ge by lia. cbn. symmetry. apply lookup_ge_None. lia.
Qed.

(** Column [j] of the table written is channel [j]. *)
Lemma column_rows_of_columns (n : nat) (cols : list (list F)) (j : nat) (col : list F) :
  cols !! j = Some col → length col = n →
  column (rows_of_columns n cols) j = Ok col.
Proof.
  intros Hj <-. unfold rows_of_columns.
  by rewrite (column_rows_of_columns_at cols j col), lookups_of_seq.
Qed.

(** X10: the table written has one row per entry of [x] and nine entries
    in every row. *)
Theorem write_blade_planform_shape (pf : gmap string (value F)) (rows : list (list F)) :
  write_blade_planform_data calculate_length pf = Ok rows →
  ∃ x, pf !! "x" = Some (VArray x) ∧ length rows = length x ∧
       Forall (λ row, length row = 9) rows.
Proof.
  unfold write_blade_planform_data, dict_get, mbind, result_bind.
  destruct (pf !! "x") as [[?|x]|]; [done| |done]. cbn [shape0].
  destruct (calculate_length _) as [?|]; [|done].
  destruct (fill_columns pf (length x) planform_columns) as [cols|] eqn:Hcols; [|done].
  intros [= <-]. exists x. split; [done|].
  apply fill_columns_shape in Hcols as [Hlen _].
  unfold rows_of_columns. rewrite length_map, length_seq. split; [done|].
  apply Forall_forall. intros row (i & -> & _)%list_elem_of_fmap.
  by rewrite length_map, Hlen.
Qed.

(** X11: the table written depends on the nine channels of the table and
    on nothing else in the dictionary: [s], [athick], [blade_length] and
    [smax] are left out. *)
Theorem write_blade_planform_only_columns (pf1 pf2 : gmap string (value F)) :
  Forall (λ k, pf1 !! k = pf2 !! k) planform_columns →
  write_blade_planform_data calculate_length pf1
  = write_blade_planform_data calculate_length pf2.
Proof.
  intros Hagree. unfold write_blade_planform_data, dict_get, mbind, result_bind.
  pose proof Hagree as [Hx _]%Forall_cons. rewrite Hx.
  destruct (pf2 !! "x") as [[?|x]|]; [done| |done]. cbn [shape0].
  destruct (calculate_length _) as [?|]; [|done].
  by rewrite (fill_columns_ext pf1 pf2 _ _ Hagree).
Qed.
End writer_facts.

(** ** The configuration of the lofted surface *)

Section config_facts.
Context {V : Type}.

Lemma unknown_key_inj (k1 k2 : string) :
  "unknown config key " +:+ k1 = "unknown config key " +:+ k2 → k1 = k2.
Proof. apply (inj (String.app _)). Qed.

(** X12: the configuration after [__init__] has exactly the keys of the
    defaults; a key of [config] that is one of them replaces the default,
    and any other key only prints a line. *)
Theorem merge_config_spec (defaults config : gmap string V) (k : string) :
  (merge_config defaults config).1 !! k
  = match defaults !! k with
    | Some d => Some (default d (config !! k))
    | None => None
    end
  ∧ ("unknown config key " +:+ k ∈ (merge_config defaults config).2
     ↔ is_Some (config !! k) ∧ defaults !! k = None).
Proof.
  unfold merge_config.
  apply (map_fold_weak_ind (λ r m, ∀ k,
    r.1 !! k = match defaults !! k with
               | Some d => Some (default d (m !! k))
               | None => None
               end
    ∧ ("unknown config key " +:+ k ∈ r.2 ↔ is_Some (m !! k) ∧ defaults !! k = None))).
  - intros k'. cbn. rewrite lookup_empty. split; [by destruct (defaults !! k')|].
    split; [by intros ?%elem_of_nil|]. intros [[? [=]] _].
  - intros i x m [cfg printed] Hi IH k'. cbn [fst snd] in *.
    destruct (IH i) as [Hcfg_i Hpr_i]. rewrite Hi in Hcfg_i.
    destruct (IH k') as [Hcfg Hpr].
    case_decide as Hknown; cbn [fst snd].
    + assert (is_Some (defaults !! i)) as [d Hd].
      { destruct (defaults !! i); [done|]. rewrite Hcfg_i in Hknown. by destruct Hknown. }
      destruct (decide (i = k')) as [->|Hne].
      * rewrite !lookup_insert_eq, Hd. cbn. split; [done|]. rewrite Hpr, Hi.
        split; [by intros [[? [=]] _]|]. intros [_ ?]. congruence.
      * rewrite !lookup_insert_ne by done. split; [done|]. exact Hpr.
    + assert (defaults !! i = None) as Hd.
      { destruct (defaults !! i); [|done]. rewrite Hcfg_i in Hknown.
        exfalso. apply Hknown. eauto. }
      destruct (decide (i = k')) as [->|Hne].
      * rewrite lookup_insert_eq, Hd. split; [by rewrite Hcfg, Hd|].
        rewrite elem_of_app, list_elem_of_singleton. split; [eauto|]. by right.
      * rewrite lookup_insert_ne by done. split; [done|].
        rewrite elem_of_app, list_elem_of_singleton, Hpr. split; [|tauto].
        intros [?|Heq%unknown_key_inj]; [done|congruence].
Qed.
End config_facts.

(** ** The resampler without PGL: what it writes *)

Section resampler_run.
Context {F : Type} `{Scalar F}.
Variable pchip : list F → list F → list F → result (list F).
Variable PGL_redistribute_planform :
  gmap string (list F) → list (list F) → list F → string → result (gmap string (list F)).

(** The outputs of a call without PGL in which [pchip] returns [g v] for
    every channel [v]. *)
Lemma redistribute_fallback_run (self : PGLRedistributedPlanform F)
    (params unknowns : gmap string (list F)) (g : list F → list F) (s_in : list F) :
  params !! "blade_ae:s" = Some s_in →
  Forall (λ k, ∃ v, params !! ("blade_ae:" +:+ k) = Some v ∧
                    pchip s_in v (s_new self) = Ok (g v)) input_channels →
  (∀ c r, params !! "blade_ae:chord" = Some c → params !! "blade_ae:rthick" = Some r →
          length (g c) = length (g r)) →
  ∃ unknowns' chord rthick,
    PGLRedistributedPlanform_solve_nonlinear false pchip PGL_redistribute_planform
      self params unknowns = (Ok tt, unknowns') ∧
    Forall (λ k, ∃ v, params !! ("blade_ae:" +:+ k) = Some v ∧
                      unknowns' !! blade_key (_suffix self) k = Some (g v)) input_channels ∧
    params !! "blade_ae:chord" = Some chord ∧
    params !! "blade_ae:rthick" = Some rthick ∧
    unknowns' !! blade_key (_suffix self) "athick" = Some (zip_with fmul (g chord) (g rthick)).
Proof.
  intros Hs Hall Hglen.
  unfold input_channels in Hall. repeat (apply Forall_cons in Hall as [[? [? ?]] Hall]).
  repeat match goal with
    | Hk : params !! (?a +:+ ?b) = _ |- _ =>
        let k := eval vm_compute in (a +:+ b) in change (a +:+ b) with k in Hk
    end.
  simplify_eq.
  unfold PGLRedistributedPlanform_solve_nonlinear, dict_get, mbind, M_bind, lift, modify.
  repeat match goal with
    | Hk : params !! ?k = Some _ |- context [params !! ?k] => rewrite Hk
    end.
  cbv beta iota.
  match goal with
  | |- context [resample_pchip _ _ _ ?m] => set (pf_in := m)
  end.
  assert (Hpf_s : pf_in !! "s" = Some s_in) by reflexivity.
  rewrite Hpf_s. unfold result_bind. cbv beta iota.
  rewrite (resample_pchip_Ok pchip s_in (s_new self) g pf_in); last first.
  { intros k v Hk. unfold pf_in in Hk.
    repeat (apply lookup_insert_Some in Hk as [[_ <-]|[_ Hk]]; [done|]).
    by rewrite lookup_empty in Hk. }
  cbv beta iota.
  assert (Hpf : ∀ k v, pf_in !! k = Some v → (g <$> pf_in) !! k = Some (g v)).
  { intros k v Hk. by rewrite lookup_fmap, Hk. }
  rewrite (Hpf "chord" _ eq_refl), (Hpf "rthick" _ eq_refl).
  unfold np_mul. rewrite np_binop_same_length by (by apply Hglen).
  do 3 eexists. split; [reflexivity|].
  match goal with
  | |- Forall (λ k, ∃ v, _ ∧ ?m !! _ = _) _ ∧ _ => set (out := m)
  end.
  assert (Hout : ∀ k v, k ≠ "athick" → pf_in !! k = Some v →
    out !! blade_key (_suffix self) k = Some (g v)).
  { intros k v Hne Hk. unfold out.
    rewrite lookup_insert_ne by (intros Heq; by apply blade_key_inj in Heq).
    apply copy_planform_lookup. by apply Hpf. }
  split_and!; [|reflexivity|reflexivity|apply lookup_insert_eq].
  unfold input_channels.
  repeat (apply Forall_cons; split;
    [eexists; split; [eassumption|apply Hout; [discriminate|reflexivity]]|]).
  constructor.
Qed.
End resampler_run.

(** ** Further properties in exact arithmetic *)

Section more_real.
#[local] Open Scope R_scope.

Ltac real_ops :=
  unfold fsquare, fthree, ftwo in *;
  cbn [fzero fone fadd fsub fmul fdiv fltb feqb fsqrt real] in *.

(** *** normdist *)


Lemma normdist_Ok (xp : list R) (x0 xn : R) :
  head xp = Some x0 → last xp = Some xn →
  normdist xp = Ok (map (λ x, (x - x0) / (xn - x0)) xp).
Proof.
  intros H0 Hn. unfold normdist, np_first, np_last, mbind, result_bind.
  destruct xp as [|x xp]; [done|]. cbn in H0. injection H0 as ->. rewrite Hn.
  unfold np_div_scalar. by rewrite map_map.
Qed.

(** X13: [normdist] sends the first abscissa to 0 and the last to 1 and
    keeps the number of entries, when the two differ. *)
Theorem normdist_endpoints (xp : list R) (x0 xn : R) :
  head xp = Some x0 → last xp = Some xn → x0 ≠ xn →
  ∃ out, normdist xp = Ok out ∧ length out = length xp ∧
         head out = Some 0 ∧ last out = Some 1.
Proof.
  intros H0 Hn Hne. eexists. split; [by apply normdist_Ok|].
  split_and!.
  - by rewrite length_map.
  - destruct xp as [|x xp]; [done|]. cbn in H0 |- *. injection H0 as ->.
    f_equal. unfold Rdiv. ring.
  - change (map (λ x, (x - x0) / (xn - x0)) xp) with ((λ x, (x - x0) / (xn - x0)) <$> xp).
    rewrite fmap_last, Hn. cbn. f_equal. field. lra.
Qed.


(** *** The resampler at the input stations *)

Lemma pchip_spec_nodes (xp yp : list R) :
  (2 ≤ length xp)%nat → strictly_increasing xp = true → length yp = length xp →
  pchip_spec xp yp xp = Ok yp.
Proof.
  intros Hge Hinc Hlen. rewrite pchip_spec_Ok by done. f_equal.
  apply pchip_eval_nodes; [done..| |done]. by apply length_pchip_derivatives.
Qed.

(** X15: without PGL, resampling a planform at its own stations gives the
    planform back: every output channel is the input channel, and athick
    is chord times rthick. *)
Theorem redistribute_at_input_stations
    (PGL_redistribute_planform :
       gmap string (list R) → list (list R) → list R → string
       → result (gmap string (list R)))
    (self : PGLRedistributedPlanform R) (params unknowns : gmap string (list R))
    (s_in : list R) :
  params !! "blade_ae:s" = Some s_in → s_new self = s_in →
  (2 ≤ length s_in)%nat → strictly_increasing s_in = true →
  Forall (λ k, ∃ v, params !! ("blade_ae:" +:+ k) = Some v ∧ length v = length s_in)
         input_channels →
  ∃ unknowns' chord rthick,
    PGLRedistributedPlanform_solve_nonlinear false pchip_spec PGL_redistribute_planform
      self params unknowns = (Ok tt, unknowns') ∧
    Forall (λ k, unknowns' !! blade_key (_suffix self) k = params !! ("blade_ae:" +:+ k))
           input_channels ∧
    params !! "blade_ae:chord" = Some chord ∧
    params !! "blade_ae:rthick" = Some rthick ∧
    unknowns' !! blade_key (_suffix self) "athick" = Some (zip_with Rmult chord rthick).
Proof.
  intros Hs Hnew Hge Hinc Hall.
  assert (Hchord : ∃ v, params !! ("blade_ae:" +:+ "chord") = Some v ∧ length v = length s_in).
  { rewrite Forall_forall in Hall. apply Hall. unfold input_channels.
    rewrite list_elem_of_In. cbn [In]. tauto. }
  assert (Hrthick : ∃ v, params !! ("blade_ae:" +:+ "rthick") = Some v ∧ length v = length s_in).
  { rewrite Forall_forall in Hall. apply Hall. unfold input_channels.
    rewrite list_elem_of_In. cbn [In]. tauto. }
  destruct Hchord as (c & Hc & Hclen), Hrthick as (r & Hr & Hrlen).
  destruct (redistribute_fallback_run pchip_spec PGL_redistribute_planform
              self params unknowns (λ v, v) s_in Hs) as (u' & c' & r' & Hrun & Hout & Hc' & Hr' & Ha).
  - eapply Forall_impl; [exact Hall|]. cbv beta. intros k (v & Hv & Hlen).
    exists v. split; [done|]. rewrite Hnew. by apply pchip_spec_nodes.
  - intros c0 r0 Hc0 Hr0.
    change ("blade_ae:" +:+ "chord") with "blade_ae:chord" in Hc.
    change ("blade_ae:" +:+ "rthick") with "blade_ae:rthick" in Hr.
    simplify_eq. congruence.
  - exists u', c', r'. split_and!; [done| |done|done|done].
    eapply Forall_impl; [exact Hout|]. cbv beta. intros k (v & Hv & Hk).
    by rewrite Hk, Hv.
Qed.

(** *** The planform that is read *)

(** X16: the z channel of a planform that is read ends at 1, when the z of
    the last row of the table is not 0. *)
Theorem read_blade_planform_unit_span
    (calculate_length : list (R * R * R) → result (list R))
    (rows : list (list R)) (pf : gmap string (value R)) (blade_length : R) :
  read_blade_planform calculate_length rows = Ok pf →
  pf !! "blade_length" = Some (VFloat blade_length) → blade_length ≠ 0 →
  ∃ z, pf !! "z" = Some (VArray z) ∧ last z = Some 1.
Proof.
  intros Hread Hbl Hne.
  apply read_blade_planform_channels in Hread
    as (c0 & c1 & c2 & c3 & c4 & c5 & c6 & c7 & c8 & arc & bl & smax & rmax & athick
        & _ & _ & _ & Hc2 & _ & _ & _ & _ & _ & _ & _ & Hlast & _ & _ & _ & _ & _ & _
        & Hz & _ & _ & _ & _ & _ & _ & _ & Hbl' & _).
  rewrite Hbl in Hbl'. injection Hbl' as <-.
  eexists. split; [exact Hz|].
  pose proof (column_last _ _ _ _ Hc2 Hlast) as Hl.
  unfold np_div_scalar. change (map ?f c2) with (f <$> c2).
  rewrite fmap_last, Hl. cbn. f_equal. by field.
Qed.

Lemma zip3_div (a b c : list R) (L : R) :
  zip3 (np_div_scalar a L) (np_div_scalar b L) (np_div_scalar c L)
  = map (λ p, (p.1.1 / L, p.1.2 / L, p.2 / L)) (zip3 a b c).
Proof.
  unfold zip3, np_div_scalar. revert b c.
  induction a as [|x a IH]; intros [|y b] [|z c]; cbn; try done.
  f_equal. apply IH.
Qed.

Lemma dist3_div (L : R) (p q : R * R * R) :
  L ≠ 0 →
  dist3 (p.1.1 / L, p.1.2 / L, p.2 / L) (q.1.1 / L, q.1.2 / L, q.2 / L)
  = dist3 p q / Rabs L.
Proof.
  intros HL. destruct p as [[px py] pz], q as [[qx qy] qz]. unfold dist3. real_ops. cbn.
  rewrite <- sqrt_Rsqr_abs. unfold Rsqr.
  rewrite <- sqrt_div_alt by nra. f_equal. by field.
Qed.

Lemma running_length_div (L acc : R) (p : R * R * R) (ps : list (R * R * R)) :
  L ≠ 0 →
  running_length (acc / Rabs L) (p.1.1 / L, p.1.2 / L, p.2 / L)
    (map (λ p, (p.1.1 / L, p.1.2 / L, p.2 / L)) ps)
  = map (λ x, x / Rabs L) (running_length acc p ps).
Proof.
  intros HL. revert acc p. induction ps as [|q ps IH]; intros acc p; [done|].
  cbn [map running_length]. rewrite dist3_div by done. cbn [fadd real].
  replace (acc / Rabs L + dist3 p q / Rabs L) with ((acc + dist3 p q) / Rabs L)
    by (field; by apply Rabs_no_R0).
  by rewrite IH.
Qed.

Lemma calculate_length_spec_div (L : R) (pts : list (R * R * R)) (arc : list R) :
  L ≠ 0 → calculate_length_spec pts = Ok arc →
  calculate_length_spec (map (λ p, (p.1.1 / L, p.1.2 / L, p.2 / L)) pts)
  = Ok (map (λ x, x / Rabs L) arc).
Proof.
  intros HL. destruct pts as [|p ps]; cbn; intros [= <-]; [done|].
  f_equal. cbn [map]. f_equal.
  - field. by apply Rabs_no_R0.
  - rewrite <- running_length_div by done. f_equal. field. by apply Rabs_no_R0.
Qed.

(** X17: on the axis of a planform that was read, [ComputeSmax] gives the
    arc length of the table's axis divided by the absolute value of the
    blade length. *)
Theorem ComputeSmax_of_read_planform (rows : list (list R)) (pf : gmap string (value R))
    (params : gmap string (list R)) (x y z : list R) (smax blade_length : R) :
  read_blade_planform calculate_length_spec rows = Ok pf →
  pf !! "x" = Some (VArray x) → pf !! "y" = Some (VArray y) → pf !! "z" = Some (VArray z) →
  pf !! "smax" = Some (VFloat smax) →
  pf !! "blade_length" = Some (VFloat blade_length) → blade_length ≠ 0 →
  params !! "blade_ae:x" = Some x → params !! "blade_ae:y" = Some y →
  params !! "blade_ae:z" = Some z →
  ComputeSmax_solve_nonlinear calculate_length_spec params = Ok (smax / Rabs blade_length).
Proof.
  intros Hread Hx Hy Hz Hsmax Hbl Hne Hpx Hpy Hpz.
  apply read_blade_planform_channels in Hread
    as (c0 & c1 & c2 & c3 & c4 & c5 & c6 & c7 & c8 & arc & bl & sm & rmax & athick
        & _ & Hc0 & Hc1 & Hc2 & _ & _ & _ & _ & _ & _ & Harc & _ & Hsm & _ & _ & _
        & Hx' & Hy' & Hz' & _ & _ & _ & _ & _ & _ & _ & Hbl' & Hsmax').
  simplify_eq.
  apply column_length in Hc0, Hc1, Hc2.
  unfold ComputeSmax_solve_nonlinear, dict_get, mbind, result_bind.
  rewrite Hpx, Hpy, Hpz. unfold np_columns3.
  rewrite decide_True by (unfold np_div_scalar; rewrite !length_map; lia).
  rewrite zip3_div, (calculate_length_spec_div _ _ arc) by done.
  unfold np_last in Hsm |- *. destruct (last arc) as [l|] eqn:Hlast; [|done].
  injection Hsm as ->. change (map ?f arc) with (f <$> arc).
  by rewrite fmap_last, Hlast.
Qed.

(** *** Writing a planform and reading it back *)

Lemma loadtxt_Ok {F : Type} (rows : list (list F)) :
  (2 ≤ length rows)%nat → loadtxt rows = Ok rows.
Proof. destruct rows as [|? [|??]]; cbn; (done || lia). Qed.

Lemma column_last_row {F : Type} (data : list (list F)) (j : nat) (c : list F) (b : F) :
  column data j = Ok c → last c = Some b → last_row_get data j = Ok b.
Proof.
  revert c. induction data as [|row data IH]; intros c; [by intros [= <-]|].
  intros (x & c' & Hx & Hc' & ->)%column_cons. unfold last_row_get.
  destruct data as [|row' data].
  - cbn in Hc' |- *. injection Hc' as <-. unfold row_get. rewrite Hx. by intros [= <-].
  - change (last (row :: row' :: data)) with (last (row' :: data)).
    pose proof Hc' as (y & c'' & _ & _ & ->)%column_cons.
    change (last (x :: y :: c'')) with (last (y :: c'')). by apply IH.
Qed.

Lemma np_div_scalar_1 (a : list R) : np_div_scalar a 1 = a.
Proof.
  unfold np_div_scalar. rewrite <- (map_id a) at 2. apply map_ext.
  intros x. cbn. lra.
Qed.

(** X18: a planform whose nine columns are arrays of one length, at least
    2, whose z ends at 1 and whose largest rthick is 1, is written and
    read back with the same nine columns. *)
Theorem write_read_blade_planform
    (calculate_length : list (R * R * R) → result (list R))
    (pf : gmap string (value R)) (x y z rot_x rot_y rot_z chord rthick p_le : list R) :
  (∀ pts, ∃ arc, calculate_length pts = Ok arc ∧ length arc = length pts) →
  Forall2 (λ k col, pf !! k = Some (VArray col) ∧ length col = length x)
          planform_columns [x; y; z; rot_x; rot_y; rot_z; chord; rthick; p_le] →
  (2 ≤ length x)%nat → last z = Some 1 → np_max rthick = Ok 1 →
  ∃ rows pf',
    write_blade_planform_data calculate_length pf = Ok rows ∧
    read_blade_planform calculate_length rows = Ok pf' ∧
    Forall (λ k, pf' !! k = pf !! k) planform_columns.
Proof.
  intros Hcalc Hcols Hge Hz Hmax.
  pose proof (fill_columns_arrays _ _ _ _ Hcols) as Hfill.
  unfold planform_columns in Hcols.
  repeat match goal with
    | Hc : Forall2 _ (_ :: _) (_ :: _) |- _ => apply Forall2_cons in Hc as [[? ?] Hc]
    end.
  set (n := length x) in *.
  set (cols := [x; y; z; rot_x; rot_y; rot_z; chord; rthick; p_le]) in *.
  destruct (Hcalc (replicate n (0, 0, 0))) as (arc0 & Harc0 & _).
  assert (Hwrite : write_blade_planform_data calculate_length pf
                   = Ok (rows_of_columns n cols)).
  { unfold write_blade_planform_data, dict_get, mbind, result_bind.
    match goal with Hx : pf !! "x" = _ |- _ => rewrite Hx end.
    cbn [shape0]. fold n. change fzero with 0. by rewrite Harc0, Hfill. }
  set (rows := rows_of_columns n cols) in *.
  assert (Hrows : (2 ≤ length rows)%nat).
  { unfold rows, rows_of_columns. by rewrite length_map, length_seq. }
  assert (Hcol : ∀ j col, cols !! j = Some col → length col = n → column rows j = Ok col).
  { intros j col. apply column_rows_of_columns. }
  destruct (Hcalc (zip3 x y z)) as (arc & Harc & Harclen).
  assert (length arc = n) as Harcn.
  { rewrite Harclen. unfold zip3. rewrite !length_zip. lia. }
  destruct (last arc) as [smax|] eqn:Hsmax; last first.
  { apply last_None in Hsmax. subst arc. cbn in Harcn. lia. }
  exists rows. eexists. split; [exact Hwrite|].
  unfold read_blade_planform, mbind, result_bind.
  rewrite loadtxt_Ok by done.
  rewrite (Hcol 0%nat x), (Hcol 1%nat y), (Hcol 2%nat z) by done.
  rewrite Harc.
  rewrite (column_last_row rows 2 z 1) by (done || by apply Hcol).
  unfold np_last. rewrite Hsmax.
  rewrite (Hcol 3%nat rot_x), (Hcol 4%nat rot_y), (Hcol 5%nat rot_z),
    (Hcol 6%nat chord), (Hcol 7%nat rthick), (Hcol 8%nat p_le) by done.
  rewrite Hmax. rewrite !np_div_scalar_1.
  unfold np_mul. rewrite np_binop_same_length by congruence.
  split; [reflexivity|].
  unfold planform_columns.
  repeat (apply Forall_cons; split; [by simplify_map_eq|]). constructor.
Qed.
End more_real.

(** * The further properties on concrete inputs *)

Section length_facts.
Context {F : Type} `{Scalar F}.

Lemma length_running_length (acc : F) (p : F * F * F) (ps : list (F * F * F)) :
  length (running_length acc p ps) = length ps.
Proof.
  revert acc p. induction ps as [|q ps IH]; intros acc p; [done|].
  cbn [running_length length]. by rewrite IH.
Qed.

Lemma calculate_length_spec_length (points : list (F * F * F)) (arc : list F) :
  calculate_length_spec points = Ok arc → length arc = length points.
Proof.
  destruct points as [|p ps]; intros [= <-]; [done|].
  cbn [length]. by rewrite length_running_length.
Qed.
End length_facts.

(** X2 on the chord spline. *)
Lemma FFDSpline_strategy_follows_option_witness :
  Spline_class (spline (self (FFD_run (chord_params [0; 0.25; 0]%float) chord_state).2))
  = "pchip".
Proof.
  apply (FFDSpline_strategy_follows_option false pchip_spec NaturalCubicSpline_unreached
           curvature_spec BezierCurve_update_absent
           (chord_params [0; 0.25; 0]%float) chord_state); reflexivity.
Defined.

(** X3 on a chord spline left with its default strategy. *)
Lemma FFDSpline_default_strategy_needs_PGL_witness :
  let st := {| self := FFDSpline_init "blade_ae:chord" chord_s chord_P chord_Cx 1%float;
               unknowns := ∅; calls := [] |} in
  let run := FFD_run (chord_params [0; 0.25; 0]%float) st in
  run.1 = Raise (NameError "BezierCurve") ∧ unknowns run.2 = ∅.
Proof.
  apply (FFDSpline_default_strategy_needs_PGL pchip_spec NaturalCubicSpline_unreached
           curvature_spec BezierCurve_update_absent
           "blade_ae:chord" chord_s chord_P chord_Cx [0; 0.25; 0]%float 1%float
           (chord_params [0; 0.25; 0]%float) ∅ []).
  reflexivity.
Defined.

(** X4 on the chord spline after a first evaluation. *)
Lemma FFDSpline_pchip_flag_irrelevant_witness :
  let st1 := (FFD_run (chord_params [0; 0.25; 0]%float) chord_state).2 in
  let run := FFD_run (chord_params [0; 0.5; 0]%float) st1 in
  let run_b :=
    FFD_run (chord_params [0; 0.5; 0]%float) (on_self (with_init_called true) st1) in
  run_b.1 = run.1 ∧
  unknowns run_b.2 = unknowns run.2 ∧
  spline (self run_b.2) = spline (self run.2) ∧
  _P (self run_b.2) = _P (self run.2).
Proof.
  apply (FFDSpline_pchip_flag_irrelevant false pchip_spec NaturalCubicSpline_unreached
           curvature_spec BezierCurve_update_absent
           (chord_params [0; 0.5; 0]%float)
           (FFD_run (chord_params [0; 0.25; 0]%float) chord_state).2 true); reflexivity.
Defined.

(** X5 on the prebent table. *)
Lemma read_blade_planform_needs_table_witness :
  read_blade_planform calculate_length_spec prebent_table = Ok prebent_planform ∧
  2 ≤ length prebent_table ∧ Forall (λ row, 9 ≤ length row) prebent_table.
Proof.
  assert (Hread : read_blade_planform calculate_length_spec prebent_table
                  = Ok prebent_planform) by reflexivity.
  split; [exact Hread|].
  exact (read_blade_planform_needs_table calculate_length_spec prebent_table
           prebent_planform Hread).
Defined.

(** X6 on the prebent table. *)
Lemma read_blade_planform_channel_lengths_witness :
  read_blade_planform calculate_length_spec prebent_table = Ok prebent_planform ∧
  Forall (λ k, ∃ a, prebent_planform !! k = Some (VArray a) ∧ length a = 2) output_channels.
Proof.
  assert (Hread : read_blade_planform calculate_length_spec prebent_table
                  = Ok prebent_planform) by reflexivity.
  split; [exact Hread|].
  exact (read_blade_planform_channel_lengths calculate_length_spec prebent_table
           prebent_planform calculate_length_spec_length Hread).
Defined.

(** X7 on the prebent table. *)
Lemma read_blade_planform_athick_witness :
  read_blade_planform calculate_length_spec prebent_table = Ok prebent_planform ∧
  ∃ chord rthick,
    prebent_planform !! "chord" = Some (VArray chord) ∧
    prebent_planform !! "rthick" = Some (VArray rthick) ∧
    prebent_planform !! "athick" = Some (VArray (zip_with fmul rthick chord)).
Proof.
  assert (Hread : read_blade_planform calculate_length_spec prebent_table
                  = Ok prebent_planform) by reflexivity.
  split; [exact Hread|].
  exact (read_blade_planform_athick calculate_length_spec prebent_table
           prebent_planform Hread).
Defined.

(** X8 on the tapered planform without its chord. *)
Lemma redistribute_needs_every_input_witness :
  ∃ k, k ∈ input_channels ∧ chordless_params !! ("blade_ae:" +:+ k) = None ∧
       redistribute_run resampler chordless_params ∅
       = (Raise (KeyError ("blade_ae:" +:+ k)), ∅).
Proof.
  apply (redistribute_needs_every_input false pchip_spec PGL_redistribute_planform_absent
           resampler chordless_params ∅).
  unfold input_channels. do 7 apply Exists_cons_tl. apply Exists_cons_hd. reflexivity.
Defined.

(** X9 on the tapered planform. *)
Lemma redistribute_fallback_writes_outputs_witness :
  redistribute_run resampler taper_params ∅ = (Ok tt, taper_resampled) ∧
  (is_Some (taper_resampled !! "blade_st:athick") ↔
   is_Some ((∅ : gmap string (list float)) !! "blade_st:athick") ∨
   "blade_st:athick" ∈ blade_key "_st" <$> output_channels).
Proof.
  assert (Hrun : redistribute_run resampler taper_params ∅ = (Ok tt, taper_resampled))
    by reflexivity.
  split; [exact Hrun|].
  exact (redistribute_fallback_writes_outputs pchip_spec PGL_redistribute_planform_absent
           resampler taper_params ∅ taper_resampled "blade_st:athick" Hrun).
Defined.

(** X10 on the prebent planform. *)
Lemma write_blade_planform_shape_witness :
  write_blade_planform_data calculate_length_spec prebent_planform = Ok prebent_written ∧
  ∃ x, prebent_planform !! "x" = Some (VArray x) ∧
       length prebent_written = length x ∧
       Forall (λ row, length row = 9) prebent_written.
Proof.
  assert (Hwrite : write_blade_planform_data calculate_length_spec prebent_planform
                   = Ok prebent_written) by reflexivity.
  split; [exact Hwrite|].
  exact (write_blade_planform_shape calculate_length_spec prebent_planform prebent_written
           Hwrite).
Defined.

(** X11 on the prebent planform and the same without its athick. *)
Lemma write_blade_planform_only_columns_witness :
  write_blade_planform_data calculate_length_spec prebent_planform
  = write_blade_planform_data calculate_length_spec (delete "athick" prebent_planform).
Proof.
  apply write_blade_planform_only_columns. unfold planform_columns.
  repeat (apply Forall_cons; split; [reflexivity|]). constructor.
Defined.

(** X13 on three abscissas. *)
Lemma normdist_endpoints_witness :
  ∃ out, normdist [1; 2; 4]%R = Ok out ∧ length out = 3 ∧
         head out = Some 0%R ∧ last out = Some 1%R.
Proof.
  apply (normdist_endpoints [1; 2; 4]%R 1%R 4%R); [reflexivity|reflexivity|lra].
Defined.


(** X15 on the tapered planform. *)
Lemma redistribute_at_input_stations_witness :
  ∃ unknowns' chord rthick,
    PGLRedistributedPlanform_solve_nonlinear false pchip_spec PGL_redistribute_planform_absent
      resampler_same_R taper_params_R ∅ = (Ok tt, unknowns') ∧
    Forall (λ k, unknowns' !! blade_key "_st" k = taper_params_R !! ("blade_ae:" +:+ k))
           input_channels ∧
    taper_params_R !! "blade_ae:chord" = Some chord ∧
    taper_params_R !! "blade_ae:rthick" = Some rthick ∧
    unknowns' !! blade_key "_st" "athick" = Some (zip_with Rmult chord rthick).
Proof.
  apply (redistribute_at_input_stations PGL_redistribute_planform_absent resampler_same_R
           taper_params_R ∅ [0; 1 / 2; 1]%R).
  - reflexivity.
  - reflexivity.
  - cbn. lia.
  - increasing_R.
  - unfold input_channels. repeat (apply Forall_cons; split; [eexists; split; reflexivity|]).
    constructor.
Defined.

(** X16 on the prebent table. *)
Lemma read_blade_planform_unit_span_witness :
  ∃ z, prebent_planform_R !! "z" = Some (VArray z) ∧ last z = Some 1%R.
Proof.
  apply (read_blade_planform_unit_span calculate_length_spec prebent_table_R
           prebent_planform_R 4%R); [reflexivity|reflexivity|lra].
Defined.

(** X17 on the prebent table. *)
Lemma ComputeSmax_of_read_planform_witness :
  ∃ smax,
    prebent_planform_R !! "smax" = Some (VFloat smax) ∧
    ComputeSmax_solve_nonlinear calculate_length_spec
      (axis_params (np_div_scalar [0; 3] 4) (np_div_scalar [0; 0] 4) (np_div_scalar [0; 4] 4))%R
    = Ok (smax / Rabs 4)%R.
Proof.
  eexists. split; [reflexivity|].
  apply (ComputeSmax_of_read_planform prebent_table_R prebent_planform_R
           (axis_params (np_div_scalar [0; 3] 4) (np_div_scalar [0; 0] 4)
              (np_div_scalar [0; 4] 4))%R
           (np_div_scalar [0; 3] 4)%R (np_div_scalar [0; 0] 4)%R (np_div_scalar [0; 4] 4)%R
           _ 4%R);
    [reflexivity..|lra|reflexivity|reflexivity|reflexivity].
Defined.

(** X18 on the straight planform. *)
Lemma write_read_blade_planform_witness :
  ∃ rows pf',
    write_blade_planform_data calculate_length_spec unit_planform_R = Ok rows ∧
    read_blade_planform calculate_length_spec rows = Ok pf' ∧
    Forall (λ k, pf' !! k = unit_planform_R !! k) planform_columns.
Proof.
  apply (write_read_blade_planform calculate_length_spec unit_planform_R
           [0; 0] [0; 0] [0; 1] [0; 0] [0; 0] [0; 0] [1 / 10; 1 / 20] [1; 1 / 2]
           [1 / 2; 1 / 2])%R.
  - intros pts. destruct (calculate_length_spec pts) as [arc|e] eqn:Hpts.
    + exists arc. split; [done|]. by apply calculate_length_spec_length.
    + by destruct pts.
  - unfold planform_columns. repeat (apply Forall2_cons; split; [split; reflexivity|]).
    constructor.
  - cbn. lia.
  - reflexivity.
  - unfold np_max. cbn [foldl]. rewrite fmax_real.
    replace (Rltb 1 (1 / 2)) with false; [done|].
    symmetry. apply Rltb_false. lra.
Defined.
